(** * Perception pipeline of the rover (perception.py)

    A shallow embedding of [perception.py] and the properties of its
    specification.

    Numeric model.  The module computes on float64 numpy arrays.  Floating
    point values are idealised as real numbers ([R]): every operation is the
    exact operation on finite values; rounding error, signed zeros, NaN and
    infinities are outside the model.  Integer arrays (array indices, pixel
    values) are [Z].  [np.int_] is a cast to int64: it is modelled on the
    reals whose truncation int64 can hold, and a statement about the value
    it returns carries that range ([int64_range]) as a hypothesis.  A
    one-dimensional numpy array is a [list]; a two-dimensional one a list
    of rows. *)

From Stdlib Require Import Reals ZArith List Bool Lia Lra.
Import ListNotations.

#[local] Open Scope R_scope.

(** ** numpy primitives used by the module *)

Module Np.

(** Elementwise binary operation on two arrays of the same length. *)
Definition map2 {A B C : Type} (f : A -> B -> C) (xs : list A) (ys : list B)
  : list C :=
  map (fun p => f (fst p) (snd p)) (combine xs ys).

(** [np.int_(v)]: conversion of a float to an integer discards the
    fractional part (truncation toward zero).  The target type is int64:
    the model is the cast for [- 2^63 < v < 2^63]; beyond that range the
    cast has no defined value (one platform returns the least int64) and
    the model is not to be relied on. *)
Definition int_ (v : R) : Z :=
  if Rle_dec 0 v then Zfloor v else Zceil v.

(** [np.clip(a, a_min, a_max)] is [minimum(a_max, maximum(a, a_min))]. *)
Definition clip (a a_min a_max : Z) : Z :=
  Z.min a_max (Z.max a a_min).

(** [np.arctan2(y, x)]: the angle of the point [(x, y)], by quadrant. *)
Definition arctan2 (y x : R) : R :=
  if Rlt_dec 0 x then atan (y / x)
  else if Rlt_dec x 0 then
         (if Rle_dec 0 y then atan (y / x) + PI else atan (y / x) - PI)
  else if Rlt_dec 0 y then PI / 2
  else if Rlt_dec y 0 then - (PI / 2)
  else 0.

(** Boolean comparisons on floats, as used in [if] conditions. *)
Definition ltb (a b : R) : bool := if Rlt_dec a b then true else false.
Definition gtb (a b : R) : bool := if Rgt_dec a b then true else false.

End Np.

(** ** Coordinate transforms *)

(** [to_polar_coords(x_pixel, y_pixel)] *)
Definition to_polar_coords (x_pixel y_pixel : list R) : list R * list R :=
  let dist := Np.map2 (fun x y => sqrt (x ^ 2 + y ^ 2)) x_pixel y_pixel in
  let angles := Np.map2 Np.arctan2 y_pixel x_pixel in
  (dist, angles).

(** [rotate_pix(xpix, ypix, yaw)] *)
Definition rotate_pix (xpix ypix : list R) (yaw : R) : list R * list R :=
  let yaw_rad := yaw * PI / 180 in
  let xpix_rotated :=
    Np.map2 (fun x y => x * cos yaw_rad - y * sin yaw_rad) xpix ypix in
  let ypix_rotated :=
    Np.map2 (fun x y => x * sin yaw_rad + y * cos yaw_rad) xpix ypix in
  (xpix_rotated, ypix_rotated).

(** [translate_pix(xpix_rot, ypix_rot, xpos, ypos, scale)] *)
Definition translate_pix (xpix_rot ypix_rot : list R) (xpos ypos scale : R)
  : list R * list R :=
  let xpix_translated := map (fun x => x / scale + xpos) xpix_rot in
  let ypix_translated := map (fun y => y / scale + ypos) ypix_rot in
  (xpix_translated, ypix_translated).

(** [pix_to_world(xpix, ypix, xpos, ypos, yaw, world_size, scale)] *)
Definition pix_to_world (xpix ypix : list R) (xpos ypos yaw : R)
  (world_size : Z) (scale : R) : list Z * list Z :=
  let '(xpix_rot, ypix_rot) := rotate_pix xpix ypix yaw in
  let '(xpix_tran, ypix_tran) :=
    translate_pix xpix_rot ypix_rot xpos ypos scale in
  let x_pix_world :=
    map (fun v => Np.clip (Np.int_ v) 0 (world_size - 1)) xpix_tran in
  let y_pix_world :=
    map (fun v => Np.clip (Np.int_ v) 0 (world_size - 1)) ypix_tran in
  (x_pix_world, y_pix_world).

(** ** Frames and binary masks *)

(** An RGB pixel [img[r, c, :]] and a frame of shape [(H, W, 3)]. *)
Definition pixel : Type := (Z * Z * Z)%type.
Definition chan0 (p : pixel) : Z := fst (fst p).
Definition chan1 (p : pixel) : Z := snd (fst p).
Definition chan2 (p : pixel) : Z := snd p.

Definition image : Type := list (list pixel).
Definition mask : Type := list (list Z).

(** [a.shape[0]] and [a.shape[1]] of a two-dimensional array. *)
Definition shape0 {A : Type} (a : list (list A)) : Z := Z.of_nat (length a).
Definition shape1 {A : Type} (a : list (list A)) : Z :=
  match a with
  | [] => 0%Z
  | row :: _ => Z.of_nat (length row)
  end.

(** [a[r, c]], when the index is in range. *)
Definition item {A : Type} (a : list (list A)) (r c : nat) : option A :=
  match nth_error a r with
  | Some row => nth_error row c
  | None => None
  end.

(** A mask pixel is active when it is nonzero. *)
Definition active (m : mask) (r c : nat) : Prop :=
  exists v, item m r c = Some v /\ v <> 0%Z.

(** [color_thresh(img, rgb_thresh)] *)
Definition default_rgb_thresh : Z * Z * Z := (160, 160, 160)%Z.

Definition color_thresh (img : image) (rgb_thresh : Z * Z * Z) : mask :=
  let above_thresh (p : pixel) :=
    (chan0 p >? fst (fst rgb_thresh))%Z
    && (chan1 p >? snd (fst rgb_thresh))%Z
    && (chan2 p >? snd rgb_thresh)%Z in
  map (map (fun p => if above_thresh p then 1%Z else 0%Z)) img.

(** [obstacle_thresh(img, rgb_thresh)] *)
Definition obstacle_thresh (img : image) (rgb_thresh : Z * Z * Z) : mask :=
  let thresh (p : pixel) :=
    (chan0 p <? fst (fst rgb_thresh))%Z
    && (chan1 p <? snd (fst rgb_thresh))%Z
    && (chan2 p <? snd rgb_thresh)%Z in
  map (map (fun p => if thresh p then 1%Z else 0%Z)) img.

(** [rock_thresh(img)] *)
Definition rock_thresh (img : image) : mask :=
  let threshold_low := (100, 100, 20)%Z in
  let threshold_high := (255, 255, 30)%Z in
  let thresh (p : pixel) :=
    (chan0 p >? fst (fst threshold_low))%Z
    && (chan0 p <? fst (fst threshold_high))%Z
    && (chan1 p >? snd (fst threshold_low))%Z
    && (chan1 p <? snd (fst threshold_high))%Z
    && (chan2 p >? snd threshold_low)%Z
    && (chan2 p <? snd threshold_high)%Z in
  map (map (fun p => if thresh p then 1%Z else 0%Z)) img.

(** [binary_img.nonzero()]: the indices of the nonzero entries in row-major
    order, as the pair (row indices, column indices). *)
Fixpoint nonzero_row (r c : Z) (row : list Z) : list (Z * Z) :=
  match row with
  | [] => []
  | v :: rest =>
      if (v =? 0)%Z then nonzero_row r (c + 1) rest
      else (r, c) :: nonzero_row r (c + 1) rest
  end.

Fixpoint nonzero_from (r : Z) (m : mask) : list (Z * Z) :=
  match m with
  | [] => []
  | row :: rest => nonzero_row r 0 row ++ nonzero_from (r + 1) rest
  end.

Definition nonzero (m : mask) : list Z * list Z :=
  let idx := nonzero_from 0 m in
  (map fst idx, map snd idx).

(** [rover_coords(binary_img)].  [shape[1] / 2] is Python's true division:
    for an odd width the y coordinates are half-integers. *)
Definition rover_coords (binary_img : mask) : list R * list R :=
  let '(ypos, xpos) := nonzero binary_img in
  let x_pixel := map (fun y => - IZR (y - shape0 binary_img)) ypos in
  let y_pixel :=
    map (fun x => - (IZR x - IZR (shape1 binary_img) / 2)) xpos in
  (x_pixel, y_pixel).

(** ** The persistent world map *)

(** Modelled from the spec: the element type of the world map is fixed where
    the map is allocated, outside this module.  Section 3 of the
    specification describes an additive accumulator; its cells are taken as
    unbounded integers. *)
Definition cell : Type := Z.

(** [Rover.worldmap], an array of shape [(wm_shape0, wm_shape1, 3)];
    [wm_cell y x ch] is [worldmap[y, x, ch]] for indices in range. *)
Record WorldMap : Type := {
  wm_shape0 : Z;
  wm_shape1 : Z;
  wm_cell : Z -> Z -> Z -> cell
}.

(** Integer indexing along an axis of length [n]: indices in [-n, n) are
    accepted, negative ones count from the end; anything else raises
    [IndexError]. *)
Definition index_ok (n i : Z) : bool := ((- n <=? i) && (i <? n))%Z.
Definition norm_index (n i : Z) : Z := if (i <? 0)%Z then (i + n)%Z else i.

Definition set_cell (wm : WorldMap) (y x ch : Z) (v : cell) : WorldMap :=
  {| wm_shape0 := wm_shape0 wm;
     wm_shape1 := wm_shape1 wm;
     wm_cell := fun y' x' ch' =>
       if ((y' =? y) && (x' =? x) && (ch' =? ch))%Z then v
       else wm_cell wm y' x' ch' |}.

(** [wm[ys, xs, ch]] with index arrays: the gathered values, or [None] for
    an index out of range. *)
Definition gather (wm : WorldMap) (ys xs : list Z) (ch : Z)
  : option (list cell) :=
  if forallb (fun p => index_ok (wm_shape0 wm) (fst p)
                       && index_ok (wm_shape1 wm) (snd p))
             (combine ys xs)
  then Some (map (fun p => wm_cell wm (norm_index (wm_shape0 wm) (fst p))
                                      (norm_index (wm_shape1 wm) (snd p)) ch)
                 (combine ys xs))
  else None.

(** [wm[ys, xs, ch] = vals]: the values are stored one index pair after the
    other. *)
Definition scatter (wm : WorldMap) (ys xs : list Z) (ch : Z)
  (vals : list cell) : WorldMap :=
  fold_left
    (fun m pv => set_cell m (norm_index (wm_shape0 wm) (fst (fst pv)))
                            (norm_index (wm_shape1 wm) (snd (fst pv)))
                            ch (snd pv))
    (combine (combine ys xs) vals) wm.

(** [wm[ys, xs, ch] += w].  numpy evaluates the augmented assignment on
    index arrays as [wm[ys, xs, ch] = wm[ys, xs, ch] + w]: the old values
    are gathered, [w] is added to the gathered copy, and the sums are
    stored back. *)
Definition iadd_at (wm : WorldMap) (ys xs : list Z) (ch : Z) (w : Z)
  : option WorldMap :=
  match gather wm ys xs ch with
  | Some old => Some (scatter wm ys xs ch (map (fun v => (v + w)%Z) old))
  | None => None
  end.

(** ** The rover state *)

(** [Rover.vision_image], one plane per channel.  The overlay is allocated
    with the shape of the camera frame, so the slice assignment
    [vision_image[:, :, k] = plane] replaces plane [k]. *)
Record Overlay : Type := {
  plane0 : mask;
  plane1 : mask;
  plane2 : mask
}.

(** The fields of [Rover] that [perception_step] reads or writes. *)
Record RoverState : Type := {
  img : image;
  pos : R * R;
  yaw : R;
  roll : R;
  pitch : R;
  worldmap : WorldMap;
  vision_image : Overlay;
  nav_dists : list R;
  nav_angles : list R;
  rocks_dists : list R;
  rocks_angles : list R
}.

(** What the telemetry layer writes into [Rover] before each call. *)
Record Telemetry : Type := {
  t_img : image;
  t_pos : R * R;
  t_yaw : R;
  t_roll : R;
  t_pitch : R
}.

Definition receive (t : Telemetry) (Rover : RoverState) : RoverState :=
  {| img := t_img t; pos := t_pos t; yaw := t_yaw t;
     roll := t_roll t; pitch := t_pitch t;
     worldmap := worldmap Rover;
     vision_image := vision_image Rover;
     nav_dists := nav_dists Rover;
     nav_angles := nav_angles Rover;
     rocks_dists := rocks_dists Rover;
     rocks_angles := rocks_angles Rover |}.

(** ** The perception step *)

Section Perception.

(** OpenCV is an external library: [cv2.getPerspectiveTransform] and
    [cv2.warpPerspective] are parameters of the development. *)
Variable matrix : Type.
Variable getPerspectiveTransform : list (R * R) -> list (R * R) -> matrix.
Variable warpPerspective :
  forall A : Type, list (list A) -> matrix -> Z * Z -> list (list A).

(** [perspect_transform(img, src, dst)] *)
Definition perspect_transform (img : image) (src dst : list (R * R))
  : image * mask :=
  let M := getPerspectiveTransform src dst in
  let warped := warpPerspective pixel img M (shape1 img, shape0 img) in
  let mask :=
    warpPerspective Z (map (map (fun _ => 1%Z)) img) M
                    (shape1 img, shape0 img) in
  (warped, mask).

(** The stability gate of step 7. *)
Definition gate_open (Rover : RoverState) : bool :=
  (Np.ltb (roll Rover) 2 || Np.gtb (roll Rover) 358)
  && (Np.ltb (pitch Rover) 2 || Np.gtb (pitch Rover) 358).

(** [perception_step(Rover)].  [None] stands for an exception raised by an
    array index out of range. *)
Definition perception_step (Rover : RoverState) : option RoverState :=
  let dst_size := 5 in
  let bottom_offset := 6 in
  let src := [(14, 140); (301, 140); (200, 96); (118, 96)] in
  let w2 := IZR (shape1 (img Rover)) / 2 in
  let h := IZR (shape0 (img Rover)) in
  let dst := [(w2 - dst_size, h - bottom_offset);
              (w2 + dst_size, h - bottom_offset);
              (w2 + dst_size, h - 2 * dst_size - bottom_offset);
              (w2 - dst_size, h - 2 * dst_size - bottom_offset)] in
  let '(warped, _) := perspect_transform (img Rover) src dst in
  let thresh_terrain := color_thresh warped default_rgb_thresh in
  let thresh_obstacle := obstacle_thresh warped default_rgb_thresh in
  let thresh_rocks := rock_thresh warped in
  let vision :=
    {| plane0 := map (map (fun v => (v * 255)%Z)) thresh_obstacle;
       plane1 := map (map (fun v => (v * 255)%Z)) thresh_rocks;
       plane2 := map (map (fun v => (v * 255)%Z)) thresh_terrain |} in
  let '(xpix, ypix) := rover_coords thresh_terrain in
  let '(xpix_obstacle, ypix_obstacle) := rover_coords thresh_obstacle in
  let '(xpix_rocks, ypix_rocks) := rover_coords thresh_rocks in
  let pos := pos Rover in
  let yaw := yaw Rover in
  let world_size := wm_shape0 (worldmap Rover) in
  let scale := 30 in
  let '(x_world, y_world) :=
    pix_to_world xpix ypix (fst pos) (snd pos) yaw world_size scale in
  let '(x_obstacle_world, y_obstacle_world) :=
    pix_to_world xpix_obstacle ypix_obstacle (fst pos) (snd pos) yaw
                 world_size scale in
  let '(x_rocks_world, y_rocks_world) :=
    pix_to_world xpix_rocks ypix_rocks (fst pos) (snd pos) yaw
                 world_size scale in
  let updated :=
    if gate_open Rover then
      match iadd_at (worldmap Rover) y_obstacle_world x_obstacle_world 0 255
      with
      | Some wm0 =>
          match iadd_at wm0 y_rocks_world x_rocks_world 1 255 with
          | Some wm1 => iadd_at wm1 y_world x_world 2 255
          | None => None
          end
      | None => None
      end
    else Some (worldmap Rover) in
  match updated with
  | Some wm =>
      let '(distance, angles) := to_polar_coords xpix ypix in
      let '(distance_rocks, angles_rocks) :=
        to_polar_coords xpix_rocks ypix_rocks in
      Some {| img := img Rover; pos := pos; yaw := yaw;
              roll := roll Rover; pitch := pitch Rover;
              worldmap := wm;
              vision_image := vision;
              nav_dists := distance;
              nav_angles := angles;
              rocks_dists := distance_rocks;
              rocks_angles := angles_rocks |}
  | None => None
  end.

(** Successive invocations: the telemetry layer refreshes the inputs, then
    [perception_step] runs, frame after frame, on the same rover state. *)
Fixpoint run (frames : list Telemetry) (Rover : RoverState)
  : option RoverState :=
  match frames with
  | [] => Some Rover
  | t :: rest =>
      match perception_step (receive t Rover) with
      | Some Rover' => run rest Rover'
      | None => None
      end
  end.

(** The intermediate results of a call, named for the statements below:
    the rectified frame, the three masks, and the world points of a mask
    under the pose of the call. *)
Definition rectified (Rover : RoverState) : image :=
  let w2 := IZR (shape1 (img Rover)) / 2 in
  let h := IZR (shape0 (img Rover)) in
  fst (perspect_transform (img Rover)
         [(14, 140); (301, 140); (200, 96); (118, 96)]
         [(w2 - 5, h - 6); (w2 + 5, h - 6);
          (w2 + 5, h - 2 * 5 - 6); (w2 - 5, h - 2 * 5 - 6)]).

Definition terrain_mask (Rover : RoverState) : mask :=
  color_thresh (rectified Rover) default_rgb_thresh.
Definition obstacle_mask (Rover : RoverState) : mask :=
  obstacle_thresh (rectified Rover) default_rgb_thresh.
Definition rock_mask (Rover : RoverState) : mask :=
  rock_thresh (rectified Rover).

Definition world_points (m : mask) (Rover : RoverState) : list Z * list Z :=
  pix_to_world (fst (rover_coords m)) (snd (rover_coords m))
               (fst (pos Rover)) (snd (pos Rover)) (yaw Rover)
               (wm_shape0 (worldmap Rover)) 30.

(** The three in-place additions of step 7, and the state a call leaves
    behind once the world map [wm] is settled. *)
Definition accumulate (Rover : RoverState) : option WorldMap :=
  let obstacle := world_points (obstacle_mask Rover) Rover in
  let rocks := world_points (rock_mask Rover) Rover in
  let terrain := world_points (terrain_mask Rover) Rover in
  match iadd_at (worldmap Rover) (snd obstacle) (fst obstacle) 0 255 with
  | Some wm0 =>
      match iadd_at wm0 (snd rocks) (fst rocks) 1 255 with
      | Some wm1 => iadd_at wm1 (snd terrain) (fst terrain) 2 255
      | None => None
      end
  | None => None
  end.

Definition settle (Rover : RoverState) (wm : WorldMap) : RoverState :=
  let terrain := rover_coords (terrain_mask Rover) in
  let rocks := rover_coords (rock_mask Rover) in
  {| img := img Rover; pos := pos Rover; yaw := yaw Rover;
     roll := roll Rover; pitch := pitch Rover;
     worldmap := wm;
     vision_image :=
       {| plane0 := map (map (fun v => (v * 255)%Z)) (obstacle_mask Rover);
          plane1 := map (map (fun v => (v * 255)%Z)) (rock_mask Rover);
          plane2 := map (map (fun v => (v * 255)%Z)) (terrain_mask Rover) |};
     nav_dists := fst (to_polar_coords (fst terrain) (snd terrain));
     nav_angles := snd (to_polar_coords (fst terrain) (snd terrain));
     rocks_dists := fst (to_polar_coords (fst rocks) (snd rocks));
     rocks_angles := snd (to_polar_coords (fst rocks) (snd rocks)) |}.

End Perception.

(** ** Definitions used to state the properties *)


(** The specification's wording of the world projection (section 4.4):
    the translated coordinate is rounded to the nearest integer, then
    clipped. *)
Definition round_nearest (v : R) : Z := Zfloor (v + / 2).

Definition pix_to_world_spec (xpix ypix : list R) (xpos ypos yaw : R)
  (world_size : Z) (scale : R) : list Z * list Z :=
  let '(xr, yr) := rotate_pix xpix ypix yaw in
  (map (fun x' => Np.clip (round_nearest (x' / scale + xpos))
                          0 (world_size - 1)) xr,
   map (fun y' => Np.clip (round_nearest (y' / scale + ypos))
                          0 (world_size - 1)) yr).

(** The floats that [np.int_] can convert: those whose truncation fits in
    int64. *)
Definition int64_range (v : R) : Prop :=
  - 9223372036854775808 < v < 9223372036854775808.

(** [v] is [r] with its fractional part discarded. *)
Definition truncates (r : R) (v : Z) : Prop :=
  (0 <= r -> IZR v <= r < IZR v + 1) /\
  (r <= 0 -> IZR v - 1 < r <= IZR v).

(** How often the index pair [(y, x)] occurs in the index arrays. *)
Definition hits (ys xs : list Z) (y x : Z) : nat :=
  length (filter (fun p => (fst p =? y)%Z && (snd p =? x)%Z)
                 (combine ys xs)).

(** Whether the index arrays address cell [(y, x)] of a map of shape
    [(n0, n1, 3)]. *)
Definition touched (n0 n1 : Z) (ys xs : list Z) (y x : Z) : bool :=
  existsb (fun p => (norm_index n0 (fst p) =? y)%Z
                    && (norm_index n1 (snd p) =? x)%Z)
          (combine ys xs).

(** A small concrete rover for examples: a level pose at the origin of an
    empty map of 200 by 200 cells. *)
Definition blank_map : WorldMap :=
  {| wm_shape0 := 200; wm_shape1 := 200; wm_cell := fun _ _ _ => 0%Z |}.

Definition bright : pixel := (200, 200, 200)%Z.
Definition dark : pixel := (10, 10, 10)%Z.

Definition sample_rover (frame : image) (roll pitch : R) : RoverState :=
  {| img := frame; pos := (0, 0); yaw := 0;
     roll := roll; pitch := pitch;
     worldmap := blank_map;
     vision_image := {| plane0 := []; plane1 := []; plane2 := [] |};
     nav_dists := []; nav_angles := [];
     rocks_dists := []; rocks_angles := [] |}.

Definition sample_frame (frame : image) (roll pitch : R) : Telemetry :=
  {| t_img := frame; t_pos := (0, 0); t_yaw := 0;
     t_roll := roll; t_pitch := pitch |}.

(** Two bright pixels side by side, and one bright pixel next to a dark
    one. *)
Definition twin_frame : image := [[bright; bright]].
Definition single_frame : image := [[bright; dark]].

(** A two-dimensional array has rows of one length, [shape[1]]. *)
Definition rectangular {A : Type} (a : list (list A)) : Prop :=
  Forall (fun row => Z.of_nat (length row) = shape1 a) a.

(** A world map without rows, and the sample rover on it. *)
Definition empty_map : WorldMap :=
  {| wm_shape0 := 0; wm_shape1 := 0; wm_cell := fun _ _ _ => 0%Z |}.

Definition stranded_rover (frame : image) : RoverState :=
  {| img := frame; pos := (0, 0); yaw := 0; roll := 0; pitch := 0;
     worldmap := empty_map;
     vision_image := {| plane0 := []; plane1 := []; plane2 := [] |};
     nav_dists := []; nav_angles := [];
     rocks_dists := []; rocks_angles := [] |}.

(** A rectifier that hands the frame back as it is, for concrete runs. *)
Definition plain_matrix (src dst : list (R * R)) : unit := tt.
Definition plain_warp (A : Type) (a : list (list A)) (M : unit)
  (dsize : Z * Z) : list (list A) := a.

(** * Properties *)

(** ** numpy primitives *)

Lemma int_truncates (r : R) : truncates r (Np.int_ r).
Proof.
  unfold truncates, Np.int_.
  destruct (Rle_dec 0 r) as [Hr | Hr]; split; intro H.
  - apply Zfloor_bound.
  - assert (r = 0) by lra. subst r.
    change 0 with (IZR 0). rewrite ZfloorZ. simpl. lra.
  - lra.
  - apply Zceil_bound.
Qed.

Lemma int_IZR (n : Z) : Np.int_ (IZR n) = n.
Proof.
  unfold Np.int_. destruct (Rle_dec 0 (IZR n)).
  - apply ZfloorZ.
  - apply Zceil_eq. lra.
Qed.

Lemma int_between (r : R) (n : Z) :
  0 <= IZR n <= r -> r < IZR n + 1 -> Np.int_ r = n.
Proof.
  intros [H0 H1] H2. unfold Np.int_.
  destruct (Rle_dec 0 r); [apply Zfloor_eq | ]; lra.
Qed.

Lemma int_between_neg (r : R) (n : Z) :
  IZR n - 1 < r -> r <= IZR n <= 0 -> Np.int_ r = n.
Proof.
  intros H0 [H1 H2]. unfold Np.int_.
  destruct (Rle_dec 0 r) as [Hr | Hr]; [ | apply Zceil_eq; lra].
  assert (r = 0) by lra. assert (IZR n = 0) by lra.
  apply Zfloor_eq. lra.
Qed.


Lemma clip_bounds (a hi : Z) :
  (0 <= hi)%Z -> (0 <= Np.clip a 0 hi <= hi)%Z.
Proof. intro H. unfold Np.clip. lia. Qed.

Lemma arctan2_bound (y x : R) : - PI < Np.arctan2 y x <= PI.
Proof.
  pose proof PI_RGT_0 as Hpi.
  pose proof (atan_bound (y / x)) as Hb.
  unfold Np.arctan2.
  destruct (Rlt_dec 0 x) as [Hx | Hx]; [lra | ].
  destruct (Rlt_dec x 0) as [Hx' | Hx'].
  - destruct (Rle_dec 0 y) as [Hy | Hy].
    + assert (y / x <= 0).
      { unfold Rdiv. assert (/ x < 0) by (apply Rinv_lt_0_compat; lra). nra. }
      assert (atan (y / x) <= 0).
      { destruct (Req_dec (y / x) 0) as [E | E].
        - rewrite E, atan_0. lra.
        - rewrite <- atan_0. apply Rlt_le, atan_increasing. lra. }
      lra.
    + assert (0 < y / x).
      { unfold Rdiv. assert (/ x < 0) by (apply Rinv_lt_0_compat; lra). nra. }
      assert (0 < atan (y / x)).
      { rewrite <- atan_0. apply atan_increasing. lra. }
      lra.
  - destruct (Rlt_dec 0 y); [lra | ].
    destruct (Rlt_dec y 0); lra.
Qed.

Lemma arctan2_forward (y x : R) :
  0 < x -> - (PI / 2) < Np.arctan2 y x < PI / 2.
Proof.
  intro Hx. unfold Np.arctan2.
  destruct (Rlt_dec 0 x); [ | lra].
  pose proof (atan_bound (y / x)). lra.
Qed.

(** ** Elementwise operations on arrays *)

Lemma map2_length {A B C : Type} (f : A -> B -> C) xs ys :
  length xs = length ys -> length (Np.map2 f xs ys) = length xs.
Proof.
  intro H. unfold Np.map2.
  rewrite length_map, length_combine. lia.
Qed.

Lemma nth_error_map2 {A B C : Type} (f : A -> B -> C) xs ys i x y :
  nth_error xs i = Some x -> nth_error ys i = Some y ->
  nth_error (Np.map2 f xs ys) i = Some (f x y).
Proof.
  unfold Np.map2. revert ys i.
  induction xs as [ | a xs IH]; intros ys i Hx Hy.
  - destruct i; discriminate.
  - destruct ys as [ | b ys]; [destruct i; discriminate | ].
    destruct i as [ | i]; simpl in *.
    + now inversion Hx; inversion Hy.
    + now apply IH.
Qed.

Lemma in_map2 {A B C : Type} (f : A -> B -> C) xs ys z :
  In z (Np.map2 f xs ys) -> exists x y, In x xs /\ In y ys /\ z = f x y.
Proof.
  unfold Np.map2. intro H.
  apply in_map_iff in H. destruct H as [[x y] [E H]].
  exists x, y. simpl in E.
  split; [now apply in_combine_l in H | ].
  split; [now apply in_combine_r in H | now symmetry].
Qed.

Lemma map2_fst {A B C : Type} (f : A -> C) (xs : list A) (ys : list B) :
  length xs = length ys -> Np.map2 (fun x _ => f x) xs ys = map f xs.
Proof.
  unfold Np.map2. revert ys.
  induction xs as [ | a xs IH]; intros [ | b ys] H; try discriminate.
  - reflexivity.
  - simpl. f_equal. apply IH. now inversion H.
Qed.

Lemma map2_snd {A B C : Type} (f : B -> C) (xs : list A) (ys : list B) :
  length xs = length ys -> Np.map2 (fun _ y => f y) xs ys = map f ys.
Proof.
  unfold Np.map2. revert ys.
  induction xs as [ | a xs IH]; intros [ | b ys] H; try discriminate.
  - reflexivity.
  - simpl. f_equal. apply IH. now inversion H.
Qed.

Lemma map2_ext {A B C : Type} (f g : A -> B -> C) xs ys :
  (forall x y, f x y = g x y) -> Np.map2 f xs ys = Np.map2 g xs ys.
Proof.
  intro H. unfold Np.map2. apply map_ext. intros [x y]. apply H.
Qed.

(** ** The world projection *)

(** A yaw of zero degrees is the identity rotation. *)
Lemma rotate_pix_yaw0 (xs ys : list R) :
  length xs = length ys -> rotate_pix xs ys 0 = (xs, ys).
Proof.
  intro H. unfold rotate_pix.
  replace (0 * PI / 180) with 0 by lra.
  rewrite cos_0, sin_0. f_equal.
  - rewrite (map2_ext _ (fun x _ => x)) by (intros; ring).
    rewrite (map2_fst (fun x => x)) by assumption. apply map_id.
  - rewrite (map2_ext _ (fun _ y => y)) by (intros; ring).
    rewrite (map2_snd (fun y => y)) by assumption. apply map_id.
Qed.

(** Each output coordinate of [pix_to_world], by position. *)
Lemma pix_to_world_nth xpix ypix xpos ypos yaw ws scale i x y :
  nth_error xpix i = Some x -> nth_error ypix i = Some y ->
  let yaw_rad := yaw * PI / 180 in
  nth_error (fst (pix_to_world xpix ypix xpos ypos yaw ws scale)) i
    = Some (Np.clip (Np.int_ ((x * cos yaw_rad - y * sin yaw_rad) / scale
                              + xpos)) 0 (ws - 1)) /\
  nth_error (snd (pix_to_world xpix ypix xpos ypos yaw ws scale)) i
    = Some (Np.clip (Np.int_ ((x * sin yaw_rad + y * cos yaw_rad) / scale
                              + ypos)) 0 (ws - 1)).
Proof.
  intros Hx Hy yaw_rad.
  unfold pix_to_world, translate_pix, rotate_pix. simpl.
  split; rewrite !nth_error_map;
    erewrite nth_error_map2 by eassumption; reflexivity.
Qed.

Lemma pix_to_world_length xpix ypix xpos ypos yaw ws scale :
  length xpix = length ypix ->
  length (fst (pix_to_world xpix ypix xpos ypos yaw ws scale)) = length xpix
  /\ length (snd (pix_to_world xpix ypix xpos ypos yaw ws scale))
     = length ypix.
Proof.
  intro H. unfold pix_to_world, translate_pix, rotate_pix. simpl.
  rewrite !length_map, !map2_length by assumption. auto.
Qed.

Lemma pix_to_world_in xpix ypix xpos ypos yaw ws scale :
  let out := pix_to_world xpix ypix xpos ypos yaw ws scale in
  forall v, In v (fst out) \/ In v (snd out) ->
            exists r, v = Np.clip (Np.int_ r) 0 (ws - 1).
Proof.
  unfold pix_to_world, translate_pix, rotate_pix. simpl.
  intros v [H | H]; apply in_map_iff in H; destruct H as [r [E _]];
    exists r; now symmetry.
Qed.



(** C2 (as the code has it): for every rover-centric point and pose, with
    a nonzero scale and translated coordinates that the int64 conversion
    can hold, [pix_to_world] computes [x'/scale + pos.x] and
    [y'/scale + pos.y], discards the fractional part of each (truncation
    toward zero, not rounding to nearest), and only then clips both to
    [[0, world_size - 1]]. *)
Theorem pix_to_world_truncates xpix ypix xpos ypos yaw ws scale i x y :
  nth_error xpix i = Some x -> nth_error ypix i = Some y ->
  scale <> 0 ->
  let yaw_rad := yaw * PI / 180 in
  let xt := (x * cos yaw_rad - y * sin yaw_rad) / scale + xpos in
  let yt := (x * sin yaw_rad + y * cos yaw_rad) / scale + ypos in
  int64_range xt -> int64_range yt ->
  exists xi yi : Z,
    truncates xt xi /\ truncates yt yi /\
    nth_error (fst (pix_to_world xpix ypix xpos ypos yaw ws scale)) i
      = Some (Np.clip xi 0 (ws - 1)) /\
    nth_error (snd (pix_to_world xpix ypix xpos ypos yaw ws scale)) i
      = Some (Np.clip yi 0 (ws - 1)).
Proof.
  intros Hx Hy Hscale yaw_rad xt yt Hxt Hyt.
  exists (Np.int_ xt), (Np.int_ yt).
  split; [apply int_truncates | ].
  split; [apply int_truncates | ].
  exact (pix_to_world_nth xpix ypix xpos ypos yaw ws scale i x y Hx Hy).
Qed.

Lemma pix_to_world_truncates_witness :
  exists xi yi : Z,
    truncates (3 / 2) xi /\ truncates 0 yi /\
    nth_error (fst (pix_to_world [45] [0] 0 0 0 200 30)) 0
      = Some (Np.clip xi 0 (200 - 1)) /\
    nth_error (snd (pix_to_world [45] [0] 0 0 0 200 30)) 0
      = Some (Np.clip yi 0 (200 - 1)).
Proof.
  assert (Hscale : 30 <> 0) by lra.
  pose proof (pix_to_world_truncates [45] [0] 0 0 0 200 30 0%nat 45 0
                eq_refl eq_refl Hscale) as H.
  cbv zeta in H.
  replace (0 * PI / 180) with 0 in H by lra.
  rewrite cos_0, sin_0 in H.
  replace ((45 * 1 - 0 * 0) / 30 + 0) with (3 / 2) in H by lra.
  replace ((45 * 0 + 0 * 1) / 30 + 0) with 0 in H by lra.
  apply H; unfold int64_range; lra.
Defined.

(** The truncation of a real is unique, so [truncates] determines the
    integer that [pix_to_world] clips. *)
Lemma truncates_unique (r : R) (v w : Z) :
  truncates r v -> truncates r w -> v = w.
Proof.
  intros [Hv0 Hv1] [Hw0 Hw1].
  destruct (Rle_dec 0 r) as [Hr | Hr].
  - specialize (Hv0 Hr). specialize (Hw0 Hr).
    assert (IZR v < IZR w + 1) by lra. assert (IZR w < IZR v + 1) by lra.
    rewrite <- plus_IZR in *.
    assert (v < w + 1)%Z by now apply lt_IZR.
    assert (w < v + 1)%Z by now apply lt_IZR.
    lia.
  - assert (Hr' : r <= 0) by lra.
    specialize (Hv1 Hr'). specialize (Hw1 Hr').
    assert (IZR v - 1 < IZR w) by lra. assert (IZR w - 1 < IZR v) by lra.
    rewrite <- minus_IZR in *.
    assert (v - 1 < w)%Z by now apply lt_IZR.
    assert (w - 1 < v)%Z by now apply lt_IZR.
    lia.
Qed.

(** C2, counterexample: seen from the origin with yaw 0, a pixel 20 units
    ahead of the rover lies at world x = 20/30; the code returns column 0,
    where rounding to nearest gives column 1. *)
Lemma pix_to_world_not_rounding :
  pix_to_world [20] [0] 0 0 0 200 30 = ([0%Z], [0%Z]) /\
  pix_to_world_spec [20] [0] 0 0 0 200 30 = ([1%Z], [0%Z]).
Proof.
  unfold pix_to_world, pix_to_world_spec, translate_pix.
  rewrite rotate_pix_yaw0 by reflexivity. cbn [map].
  rewrite (int_between (20 / 30 + 0) 0) by lra.
  rewrite (int_between (0 / 30 + 0) 0) by lra.
  unfold round_nearest.
  rewrite (Zfloor_eq 1 (20 / 30 + 0 + / 2)) by lra.
  rewrite (Zfloor_eq 0 (0 / 30 + 0 + / 2)) by lra.
  split; reflexivity.
Qed.

(** ** Polar coordinates *)

(** C7: for every pair of input coordinates [(x, y)], [to_polar_coords]
    returns the distance [sqrt (x^2 + y^2)], which is non-negative, and the
    angle [arctan2 y x], which lies in the interval (-pi, pi]. *)
Theorem to_polar_coords_spec xs ys i x y :
  nth_error xs i = Some x -> nth_error ys i = Some y ->
  nth_error (fst (to_polar_coords xs ys)) i = Some (sqrt (x ^ 2 + y ^ 2)) /\
  0 <= sqrt (x ^ 2 + y ^ 2) /\
  nth_error (snd (to_polar_coords xs ys)) i = Some (Np.arctan2 y x) /\
  - PI < Np.arctan2 y x <= PI.
Proof.
  intros Hx Hy. unfold to_polar_coords. cbn [fst snd].
  split;
    [exact (nth_error_map2 (fun x y => sqrt (x ^ 2 + y ^ 2)) xs ys i x y
                           Hx Hy) | ].
  split; [apply sqrt_pos | ].
  split; [exact (nth_error_map2 Np.arctan2 ys xs i y x Hy Hx)
         | apply arctan2_bound].
Qed.

Lemma to_polar_coords_spec_witness :
  nth_error (fst (to_polar_coords [3; -1] [4; 0])) 1
    = Some (sqrt ((-1) ^ 2 + 0 ^ 2)) /\
  0 <= sqrt ((-1) ^ 2 + 0 ^ 2) /\
  nth_error (snd (to_polar_coords [3; -1] [4; 0])) 1
    = Some (Np.arctan2 0 (-1)) /\
  - PI < Np.arctan2 0 (-1) <= PI.
Proof.
  apply (to_polar_coords_spec [3; -1] [4; 0] 1%nat (-1) 0); reflexivity.
Defined.

(** On the negative x axis the angle is pi itself: the upper bound of C7 is
    attained, the lower one is not. *)
Example arctan2_negative_axis : Np.arctan2 0 (-1) = PI.
Proof.
  unfold Np.arctan2.
  destruct (Rlt_dec 0 (-1)); [lra | ].
  destruct (Rlt_dec (-1) 0); [ | lra].
  destruct (Rle_dec 0 0); [ | lra].
  replace (0 / -1) with 0 by lra. rewrite atan_0. lra.
Qed.

(** ** Colour classifiers *)

Lemma item_map_map {A B : Type} (f : A -> B) (a : list (list A)) r c :
  item (map (map f) a) r c = option_map f (item a r c).
Proof.
  unfold item. rewrite nth_error_map.
  destruct (nth_error a r) as [row | ]; simpl; [ | reflexivity].
  apply nth_error_map.
Qed.

Lemma active_color_thresh img t r c p :
  item img r c = Some p ->
  active (color_thresh img t) r c <->
  (chan0 p > fst (fst t) /\ chan1 p > snd (fst t) /\ chan2 p > snd t)%Z.
Proof.
  intro Hp. unfold active, color_thresh.
  rewrite item_map_map, Hp. simpl.
  destruct (Z.gtb_spec (chan0 p) (fst (fst t)));
    destruct (Z.gtb_spec (chan1 p) (snd (fst t)));
    destruct (Z.gtb_spec (chan2 p) (snd t)); simpl;
    (split; [intros [v [E Hv]]; inversion E; subst v; try lia
            | intros (G0 & G1 & G2);
              first [lia | exists 1%Z; split; [reflexivity | lia]]]).
Qed.

Lemma active_obstacle_thresh img t r c p :
  item img r c = Some p ->
  active (obstacle_thresh img t) r c <->
  (chan0 p < fst (fst t) /\ chan1 p < snd (fst t) /\ chan2 p < snd t)%Z.
Proof.
  intro Hp. unfold active, obstacle_thresh.
  rewrite item_map_map, Hp. simpl.
  destruct (Z.ltb_spec (chan0 p) (fst (fst t)));
    destruct (Z.ltb_spec (chan1 p) (snd (fst t)));
    destruct (Z.ltb_spec (chan2 p) (snd t)); simpl;
    (split; [intros [v [E Hv]]; inversion E; subst v; try lia
            | intros (G0 & G1 & G2);
              first [lia | exists 1%Z; split; [reflexivity | lia]]]).
Qed.

(** C8: the terrain classifier marks a pixel active iff every channel
    strictly exceeds its threshold, the obstacle classifier iff every channel
    is strictly below its threshold; hence for a common threshold (the
    default (160, 160, 160) included) no pixel is active in both masks. *)
Theorem terrain_obstacle_disjoint img t r c p :
  item img r c = Some p ->
  (active (color_thresh img t) r c <->
   (chan0 p > fst (fst t) /\ chan1 p > snd (fst t) /\ chan2 p > snd t)%Z) /\
  (active (obstacle_thresh img t) r c <->
   (chan0 p < fst (fst t) /\ chan1 p < snd (fst t) /\ chan2 p < snd t)%Z) /\
  ~ (active (color_thresh img t) r c /\ active (obstacle_thresh img t) r c)
  /\
  ~ (active (color_thresh img default_rgb_thresh) r c /\
     active (obstacle_thresh img default_rgb_thresh) r c).
Proof.
  intro Hp.
  split; [now apply active_color_thresh | ].
  split; [now apply active_obstacle_thresh | ].
  split; intros [Ht Ho];
    apply (active_color_thresh _ _ _ _ _ Hp) in Ht;
    apply (active_obstacle_thresh _ _ _ _ _ Hp) in Ho; lia.
Qed.

Lemma terrain_obstacle_disjoint_witness :
  ~ (active (color_thresh [[(200, 200, 200); (10, 10, 10)]%Z]
                          default_rgb_thresh) 0 1 /\
     active (obstacle_thresh [[(200, 200, 200); (10, 10, 10)]%Z]
                             default_rgb_thresh) 0 1).
Proof.
  apply (terrain_obstacle_disjoint
           [[(200, 200, 200); (10, 10, 10)]%Z] default_rgb_thresh
           0%nat 1%nat (10, 10, 10)%Z).
  reflexivity.
Defined.

(** Outside the frame no pixel is active at all. *)
Lemma active_in_frame {A : Type} (f : A -> Z) (a : list (list A)) r c :
  active (map (map f) a) r c -> exists p, item a r c = Some p.
Proof.
  intros [v [E _]]. rewrite item_map_map in E.
  destruct (item a r c) as [p | ]; [now exists p | discriminate].
Qed.

(** ** The frame converter *)

Lemma nonzero_row_in r c row p :
  In p (nonzero_row r c row) ->
  fst p = r /\ (c <= snd p < c + Z.of_nat (length row))%Z.
Proof.
  revert c. induction row as [ | v rest IH]; intros c H; simpl in H.
  - contradiction.
  - assert (Hrest : In p (nonzero_row r (c + 1) rest) ->
                    fst p = r /\
                    (c <= snd p < c + Z.of_nat (length (v :: rest)))%Z).
    { intro H'. apply IH in H'. simpl length. lia. }
    destruct (v =? 0)%Z; [now apply Hrest | ].
    destruct H as [<- | H]; [ | now apply Hrest].
    simpl. lia.
Qed.

Lemma nonzero_from_in r m p :
  In p (nonzero_from r m) -> (r <= fst p < r + Z.of_nat (length m))%Z.
Proof.
  revert r. induction m as [ | row rest IH]; intros r H; simpl in H.
  - contradiction.
  - apply in_app_or in H. destruct H as [H | H].
    + apply nonzero_row_in in H. simpl length. lia.
    + apply IH in H. simpl length. lia.
Qed.

Lemma rover_coords_length (m : mask) :
  length (fst (rover_coords m)) = length (snd (rover_coords m)).
Proof.
  unfold rover_coords, nonzero. cbn [fst snd].
  now rewrite !length_map.
Qed.

(** Every x coordinate is the image height minus a row index. *)
Lemma rover_coords_x_range (m : mask) (x : R) :
  In x (fst (rover_coords m)) -> 1 <= x <= IZR (shape0 m).
Proof.
  unfold rover_coords, nonzero. cbn [fst snd]. intro H.
  apply in_map_iff in H. destruct H as [row [<- H]].
  apply in_map_iff in H. destruct H as [p [<- H]].
  apply nonzero_from_in in H. fold (shape0 m) in H.
  rewrite <- opp_IZR. split; apply IZR_le; lia.
Qed.

(** With a zero pose and unit scale the projection only truncates and
    clips. *)
Lemma pix_to_world_unit (xs ys : list R) (ws : Z) :
  length xs = length ys ->
  pix_to_world xs ys 0 0 0 ws 1
  = (map (fun x => Np.clip (Np.int_ x) 0 (ws - 1)) xs,
     map (fun y => Np.clip (Np.int_ y) 0 (ws - 1)) ys).
Proof.
  intro H. unfold pix_to_world, translate_pix.
  rewrite rotate_pix_yaw0 by assumption.
  rewrite !map_map.
  f_equal; apply map_ext; intro a; do 2 f_equal; field.
Qed.

(** C6 (as the code has it): for every binary mask, [rover_coords] followed
    by [pix_to_world] with yaw 0, position (0, 0) and scale 1 returns each
    rover-centric coordinate truncated toward zero and clipped into
    [[0, world_size - 1]]; a coordinate that is an integer within that range
    is reproduced exactly. *)
Theorem rover_world_roundtrip (m : mask) (ws : Z) :
  let xs := fst (rover_coords m) in
  let ys := snd (rover_coords m) in
  let out := pix_to_world xs ys 0 0 0 ws 1 in
  fst out = map (fun x => Np.clip (Np.int_ x) 0 (ws - 1)) xs /\
  snd out = map (fun y => Np.clip (Np.int_ y) 0 (ws - 1)) ys /\
  (forall i n, nth_error xs i = Some (IZR n) -> (0 <= n <= ws - 1)%Z ->
               nth_error (fst out) i = Some n) /\
  (forall i n, nth_error ys i = Some (IZR n) -> (0 <= n <= ws - 1)%Z ->
               nth_error (snd out) i = Some n).
Proof.
  intros xs ys out. subst out.
  rewrite pix_to_world_unit by apply rover_coords_length.
  cbn [fst snd].
  split; [reflexivity | ]. split; [reflexivity | ].
  split; intros i n Hn Hr; rewrite nth_error_map, Hn; simpl;
    rewrite int_IZR; f_equal; unfold Np.clip; lia.
Qed.

(** C6, counterexample: in a mask one row high and four columns wide, the
    active pixel in the last column has rover-centric coordinates (1, -1);
    the projection returns (1, 0). *)
Lemma roundtrip_not_identity :
  rover_coords [[0; 0; 0; 1]%Z] = ([1], [-1]) /\
  pix_to_world [1] [-1] 0 0 0 200 1 = ([1%Z], [0%Z]).
Proof.
  split.
  - unfold rover_coords, nonzero. cbn. f_equal; f_equal; lra.
  - rewrite pix_to_world_unit by reflexivity. cbn [map].
    change 1 with (IZR 1). change (-1) with (IZR (-1)).
    rewrite !int_IZR. reflexivity.
Qed.

(** ** Accumulation into the world map *)

Lemma set_cell_fold_cells (n0 n1 ch : Z) (g : Z -> Z -> cell)
  (entries : list (Z * Z * cell)) (m : WorldMap) :
  (forall pv, In pv entries ->
     snd pv = g (norm_index n0 (fst (fst pv)))
                (norm_index n1 (snd (fst pv)))) ->
  let m' :=
    fold_left
      (fun m pv => set_cell m (norm_index n0 (fst (fst pv)))
                              (norm_index n1 (snd (fst pv))) ch (snd pv))
      entries m in
  wm_shape0 m' = wm_shape0 m /\ wm_shape1 m' = wm_shape1 m /\
  forall y x c,
    wm_cell m' y x c
    = if ((c =? ch)%Z
          && existsb (fun pv => (norm_index n0 (fst (fst pv)) =? y)%Z
                                && (norm_index n1 (snd (fst pv)) =? x)%Z)
                     entries)%bool
      then g y x else wm_cell m y x c.
Proof.
  revert m. induction entries as [ | pv entries IH]; intros m Hg; cbn zeta.
  - simpl. repeat split; auto.
    intros y x c. now rewrite andb_false_r.
  - simpl fold_left.
    destruct (IH (set_cell m (norm_index n0 (fst (fst pv)))
                           (norm_index n1 (snd (fst pv))) ch (snd pv)))
      as (H0 & H1 & Hc).
    { intros pv' Hin. apply Hg. now right. }
    cbn zeta in H0, H1, Hc.
    split; [exact H0 | ]. split; [exact H1 | ].
    intros y x c. rewrite Hc. simpl existsb. simpl wm_cell.
    rewrite (Hg pv (or_introl eq_refl)).
    set (ky := norm_index n0 (fst (fst pv))).
    set (kx := norm_index n1 (snd (fst pv))).
    destruct (Z.eqb_spec c ch); destruct (existsb _ entries);
      destruct (Z.eqb_spec ky y); destruct (Z.eqb_spec kx x);
      destruct (Z.eqb_spec y ky); destruct (Z.eqb_spec x kx);
      subst; simpl; congruence.
Qed.

Lemma in_combine_map {A B : Type} (f : A -> B) (l : list A) (pv : A * B) :
  In pv (combine l (map f l)) -> snd pv = f (fst pv).
Proof.
  induction l as [ | a l IH]; simpl; [contradiction | ].
  intros [<- | H]; [reflexivity | now apply IH].
Qed.

Lemma existsb_combine_map {A B : Type} (f : A -> B) (P : A -> bool)
  (l : list A) :
  existsb (fun pv => P (fst pv)) (combine l (map f l)) = existsb P l.
Proof.
  induction l as [ | a l IH]; simpl; [reflexivity | now rewrite IH].
Qed.

(** The effect of [wm[ys, xs, ch] += w]: every addressed cell of channel
    [ch] holds its old value plus [w], once; all other cells keep their
    value. *)
Lemma iadd_at_cells wm ys xs ch w wm' :
  iadd_at wm ys xs ch w = Some wm' ->
  wm_shape0 wm' = wm_shape0 wm /\ wm_shape1 wm' = wm_shape1 wm /\
  forall y x c,
    wm_cell wm' y x c
    = if ((c =? ch)%Z
          && touched (wm_shape0 wm) (wm_shape1 wm) ys xs y x)%bool
      then (wm_cell wm y x ch + w)%Z else wm_cell wm y x c.
Proof.
  unfold iadd_at, gather, scatter.
  destruct (forallb _ (combine ys xs)); [ | discriminate].
  intro H. inversion H as [Hwm]. clear H Hwm.
  rewrite map_map.
  pose proof (set_cell_fold_cells (wm_shape0 wm) (wm_shape1 wm) ch
                (fun y x => (wm_cell wm y x ch + w)%Z)
                (combine (combine ys xs)
                   (map (fun p => (wm_cell wm
                                     (norm_index (wm_shape0 wm) (fst p))
                                     (norm_index (wm_shape1 wm) (snd p)) ch
                                   + w)%Z) (combine ys xs)))
                wm) as Hfold.
  cbn zeta in Hfold.
  destruct Hfold as (H0 & H1 & Hc).
  { intros pv Hin. apply in_combine_map in Hin. exact Hin. }
  split; [exact H0 | ]. split; [exact H1 | ].
  intros y x c. rewrite Hc. unfold touched.
  now rewrite (existsb_combine_map _
                 (fun p => (norm_index (wm_shape0 wm) (fst p) =? y)%Z
                           && (norm_index (wm_shape1 wm) (snd p) =? x)%Z)).
Qed.

(** Index arrays within the map never raise. *)
Lemma iadd_at_total wm ys xs ch w :
  (forall p, In p (combine ys xs) ->
             (0 <= fst p < wm_shape0 wm /\ 0 <= snd p < wm_shape1 wm)%Z) ->
  exists wm', iadd_at wm ys xs ch w = Some wm'.
Proof.
  intro Hin. unfold iadd_at, gather.
  replace (forallb _ (combine ys xs)) with true; [eauto | ].
  symmetry. apply forallb_forall. intros p Hp.
  specialize (Hin p Hp). unfold index_ok.
  apply andb_true_iff; split; apply andb_true_iff; split;
    try apply Z.leb_le; try apply Z.ltb_lt; lia.
Qed.

Lemma touched_in n0 n1 ys xs y x :
  (forall p, In p (combine ys xs) -> (0 <= fst p /\ 0 <= snd p)%Z) ->
  touched n0 n1 ys xs y x = true <-> In (y, x) (combine ys xs).
Proof.
  intro Hpos. unfold touched. rewrite existsb_exists. split.
  - intros [[py px] [Hin Heq]]. specialize (Hpos _ Hin). simpl in *.
    unfold norm_index in Heq.
    destruct (Z.ltb_spec py 0); [lia | ].
    destruct (Z.ltb_spec px 0); [lia | ].
    apply andb_true_iff in Heq. destruct Heq as [E1 E2].
    apply Z.eqb_eq in E1. apply Z.eqb_eq in E2. now subst.
  - intro Hin. exists (y, x). split; [exact Hin | ].
    specialize (Hpos _ Hin). simpl in *. unfold norm_index.
    destruct (Z.ltb_spec y 0); [lia | ].
    destruct (Z.ltb_spec x 0); [lia | ].
    now rewrite !Z.eqb_refl.
Qed.

(** An in-place addition of a non-negative weight lowers no cell. *)
Lemma iadd_at_monotone wm ys xs ch w wm' :
  (0 <= w)%Z -> iadd_at wm ys xs ch w = Some wm' ->
  forall y x c, (wm_cell wm y x c <= wm_cell wm' y x c)%Z.
Proof.
  intros Hw H y x c.
  destruct (iadd_at_cells _ _ _ _ _ _ H) as (_ & _ & Hc).
  rewrite Hc.
  destruct (Z.eqb_spec c ch) as [-> | ]; simpl; [ | lia].
  destruct (touched _ _ ys xs y x); lia.
Qed.

(** The world points of a mask are indices into a square (or wider) map. *)
Lemma world_points_in_map (m : mask) (Rover : RoverState) p :
  (1 <= wm_shape0 (worldmap Rover) <= wm_shape1 (worldmap Rover))%Z ->
  In p (combine (snd (world_points m Rover)) (fst (world_points m Rover))) ->
  (0 <= fst p < wm_shape0 (worldmap Rover) /\
   0 <= snd p < wm_shape1 (worldmap Rover))%Z.
Proof.
  intros Hwf Hin. destruct p as [py px].
  pose proof (in_combine_l _ _ _ _ Hin) as Hy.
  pose proof (in_combine_r _ _ _ _ Hin) as Hx.
  unfold world_points in Hx, Hy.
  destruct (pix_to_world_in _ _ _ _ _ _ _ py (or_intror Hy)) as [ry ->].
  destruct (pix_to_world_in _ _ _ _ _ _ _ px (or_introl Hx)) as [rx ->].
  simpl.
  pose proof (clip_bounds (Np.int_ ry) (wm_shape0 (worldmap Rover) - 1)).
  pose proof (clip_bounds (Np.int_ rx) (wm_shape0 (worldmap Rover) - 1)).
  lia.
Qed.

(** ** The perception step *)

Section PerceptionProperties.

Variable matrix : Type.
Variable getPerspectiveTransform : list (R * R) -> list (R * R) -> matrix.
Variable warpPerspective :
  forall A : Type, list (list A) -> matrix -> Z * Z -> list (list A).

Abbreviation step := (perception_step matrix getPerspectiveTransform
                                  warpPerspective).
Abbreviation terrain := (terrain_mask matrix getPerspectiveTransform
                                  warpPerspective).
Abbreviation obstacle := (obstacle_mask matrix getPerspectiveTransform
                                    warpPerspective).
Abbreviation rocks := (rock_mask matrix getPerspectiveTransform
                             warpPerspective).
Abbreviation accumulated := (accumulate matrix getPerspectiveTransform
                                    warpPerspective).
Abbreviation settled := (settle matrix getPerspectiveTransform warpPerspective).

(** [perception_step] in terms of its named intermediate results. *)
Lemma perception_step_unfold (Rover : RoverState) :
  step Rover
  = match (if gate_open Rover then accumulated Rover
           else Some (worldmap Rover)) with
    | Some wm => Some (settled Rover wm)
    | None => None
    end.
Proof.
  unfold perception_step, accumulate, settle, world_points,
    terrain_mask, obstacle_mask, rock_mask, rectified.
  destruct (perspect_transform _ _ _ _ _ _) as [warped msk].
  cbn [fst snd].
  destruct (rover_coords (color_thresh warped default_rgb_thresh))
    as [xpix ypix].
  destruct (rover_coords (obstacle_thresh warped default_rgb_thresh))
    as [xpix_o ypix_o].
  destruct (rover_coords (rock_thresh warped)) as [xpix_r ypix_r].
  cbn [fst snd].
  destruct (pix_to_world xpix ypix _ _ _ _ _) as [xw yw].
  destruct (pix_to_world xpix_o ypix_o _ _ _ _ _) as [xw_o yw_o].
  destruct (pix_to_world xpix_r ypix_r _ _ _ _ _) as [xw_r yw_r].
  cbn [fst snd].
  destruct (to_polar_coords xpix ypix) as [d a].
  destruct (to_polar_coords xpix_r ypix_r) as [dr ar].
  reflexivity.
Qed.

Lemma gate_open_true (Rover : RoverState) :
  gate_open Rover = true <->
  (roll Rover < 2 \/ roll Rover > 358) /\
  (pitch Rover < 2 \/ pitch Rover > 358).
Proof.
  unfold gate_open, Np.ltb, Np.gtb.
  destruct (Rlt_dec (roll Rover) 2); destruct (Rgt_dec (roll Rover) 358);
    destruct (Rlt_dec (pitch Rover) 2);
    destruct (Rgt_dec (pitch Rover) 358); simpl;
    (split; [intro; try discriminate; lra | intro; try reflexivity; lra]).
Qed.

Lemma gate_open_false (Rover : RoverState) :
  gate_open Rover = false <->
  2 <= roll Rover <= 358 \/ 2 <= pitch Rover <= 358.
Proof.
  pose proof (gate_open_true Rover) as H.
  destruct (gate_open Rover).
  - split; [discriminate | ]. intro Hc.
    destruct (proj1 H eq_refl). lra.
  - split; [ | reflexivity]. intros _.
    destruct (Rlt_dec (roll Rover) 2); destruct (Rgt_dec (roll Rover) 358);
      destruct (Rlt_dec (pitch Rover) 2);
      destruct (Rgt_dec (pitch Rover) 358);
      try lra; exfalso;
      assert (false = true) by (apply H; lra); discriminate.
Qed.

(** With the gate closed the call leaves the map alone and never raises. *)
Lemma perception_step_closed (Rover : RoverState) :
  gate_open Rover = false ->
  step Rover = Some (settled Rover (worldmap Rover)).
Proof. intro H. now rewrite perception_step_unfold, H. Qed.

Lemma perception_step_open (Rover : RoverState) :
  gate_open Rover = true ->
  step Rover = option_map (settled Rover) (accumulated Rover).
Proof.
  intro H. rewrite perception_step_unfold, H.
  now destruct (accumulated Rover).
Qed.

(** Whatever the gate, a call that returns left the cues of [settle]. *)
Lemma perception_step_some (Rover Rover' : RoverState) :
  step Rover = Some Rover' -> Rover' = settled Rover (worldmap Rover').
Proof.
  rewrite perception_step_unfold.
  destruct (if gate_open Rover then _ else _) as [wm | ];
    [ | discriminate].
  intro H. inversion H. reflexivity.
Qed.

(** The three additions, cell by cell. *)
Lemma accumulate_cells (Rover : RoverState) (wm' : WorldMap) :
  accumulated Rover = Some wm' ->
  let wm := worldmap Rover in
  let hit (m : mask) (y x : Z) :=
    touched (wm_shape0 wm) (wm_shape1 wm)
            (snd (world_points m Rover)) (fst (world_points m Rover)) y x in
  wm_shape0 wm' = wm_shape0 wm /\ wm_shape1 wm' = wm_shape1 wm /\
  forall y x,
    wm_cell wm' y x 0
    = (wm_cell wm y x 0 + if hit (obstacle Rover) y x then 255 else 0)%Z /\
    wm_cell wm' y x 1
    = (wm_cell wm y x 1 + if hit (rocks Rover) y x then 255 else 0)%Z /\
    wm_cell wm' y x 2
    = (wm_cell wm y x 2 + if hit (terrain Rover) y x then 255 else 0)%Z.
Proof.
  intros H wm hit. unfold accumulate in H.
  destruct (iadd_at (worldmap Rover) _ _ 0 255) as [wm0 | ] eqn:E0;
    [ | discriminate].
  destruct (iadd_at wm0 _ _ 1 255) as [wm1 | ] eqn:E1; [ | discriminate].
  destruct (iadd_at_cells _ _ _ _ _ _ E0) as (A0 & A1 & Ac).
  destruct (iadd_at_cells _ _ _ _ _ _ E1) as (B0 & B1 & Bc).
  destruct (iadd_at_cells _ _ _ _ _ _ H) as (C0 & C1 & Cc).
  rewrite A0, A1 in Bc. rewrite B0, B1, A0, A1 in Cc.
  split; [unfold wm; congruence | ]. split; [unfold wm; congruence | ].
  intros y x. rewrite !Cc, !Bc, !Ac. cbn [Z.eqb Pos.eqb andb].
  unfold hit, wm.
  repeat split;
    match goal with |- context [if ?b then _ else _] =>
      destruct b; lia end.
Qed.

Lemma accumulate_total (Rover : RoverState) :
  (1 <= wm_shape0 (worldmap Rover) <= wm_shape1 (worldmap Rover))%Z ->
  exists wm', accumulated Rover = Some wm'.
Proof.
  intro Hwf. unfold accumulate.
  destruct (iadd_at_total (worldmap Rover)
              (snd (world_points (obstacle Rover) Rover))
              (fst (world_points (obstacle Rover) Rover)) 0 255)
    as [wm0 E0]; [intros p; now apply world_points_in_map | ].
  rewrite E0.
  destruct (iadd_at_cells _ _ _ _ _ _ E0) as (A0 & A1 & _).
  destruct (iadd_at_total wm0
              (snd (world_points (rocks Rover) Rover))
              (fst (world_points (rocks Rover) Rover)) 1 255)
    as [wm1 E1].
  { intros p Hp. rewrite A0, A1.
    now apply (world_points_in_map (rocks Rover) Rover). }
  rewrite E1.
  destruct (iadd_at_cells _ _ _ _ _ _ E1) as (B0 & B1 & _).
  apply iadd_at_total.
  intros p Hp. rewrite B0, B1, A0, A1.
  now apply (world_points_in_map (terrain Rover) Rover).
Qed.

Lemma accumulate_monotone (Rover : RoverState) (wm' : WorldMap) :
  accumulated Rover = Some wm' ->
  wm_shape0 wm' = wm_shape0 (worldmap Rover) /\
  wm_shape1 wm' = wm_shape1 (worldmap Rover) /\
  forall y x c, (wm_cell (worldmap Rover) y x c <= wm_cell wm' y x c)%Z.
Proof.
  intro H.
  destruct (accumulate_cells Rover wm' H) as (S0 & S1 & _).
  split; [exact S0 | ]. split; [exact S1 | ].
  unfold accumulate in H.
  destruct (iadd_at (worldmap Rover) _ _ 0 255) as [wm0 | ] eqn:E0;
    [ | discriminate].
  destruct (iadd_at wm0 _ _ 1 255) as [wm1 | ] eqn:E1; [ | discriminate].
  intros y x c.
  assert (Hw : (0 <= 255)%Z) by lia.
  pose proof (iadd_at_monotone _ _ _ _ _ _ Hw E0 y x c).
  pose proof (iadd_at_monotone _ _ _ _ _ _ Hw E1 y x c).
  pose proof (iadd_at_monotone _ _ _ _ _ _ Hw H y x c).
  lia.
Qed.

Lemma perception_step_monotone (Rover Rover' : RoverState) :
  step Rover = Some Rover' ->
  wm_shape0 (worldmap Rover') = wm_shape0 (worldmap Rover) /\
  wm_shape1 (worldmap Rover') = wm_shape1 (worldmap Rover) /\
  forall y x c,
    (wm_cell (worldmap Rover) y x c <= wm_cell (worldmap Rover') y x c)%Z.
Proof.
  rewrite perception_step_unfold.
  destruct (gate_open Rover).
  - destruct (accumulated Rover) as [wm | ] eqn:E; [ | discriminate].
    intro H. inversion H. simpl. now apply accumulate_monotone.
  - intro H. inversion H. simpl. repeat split; lia.
Qed.

Lemma perception_step_total (Rover : RoverState) :
  (1 <= wm_shape0 (worldmap Rover) <= wm_shape1 (worldmap Rover))%Z ->
  exists Rover', step Rover = Some Rover'.
Proof.
  intro Hwf. rewrite perception_step_unfold.
  destruct (gate_open Rover); [ | eauto].
  destruct (accumulate_total Rover Hwf) as [wm' ->]. eauto.
Qed.

(** C3: when roll or pitch is outside the stability gate, the call returns,
    every cell of the world map is unchanged, and the four navigation cues
    are the polar coordinates of the terrain and rock masks of the frame of
    this call. *)
Theorem gate_closed_keeps_map (Rover : RoverState) :
  2 <= roll Rover <= 358 \/ 2 <= pitch Rover <= 358 ->
  exists Rover',
    step Rover = Some Rover' /\
    worldmap Rover' = worldmap Rover /\
    (forall y x c,
       wm_cell (worldmap Rover') y x c = wm_cell (worldmap Rover) y x c) /\
    let t := rover_coords (terrain Rover) in
    let k := rover_coords (rocks Rover) in
    nav_dists Rover' = fst (to_polar_coords (fst t) (snd t)) /\
    nav_angles Rover' = snd (to_polar_coords (fst t) (snd t)) /\
    rocks_dists Rover' = fst (to_polar_coords (fst k) (snd k)) /\
    rocks_angles Rover' = snd (to_polar_coords (fst k) (snd k)).
Proof.
  intro Hgate. apply gate_open_false in Hgate.
  exists (settled Rover (worldmap Rover)).
  split; [now apply perception_step_closed | ].
  simpl. repeat split; reflexivity.
Qed.

(** C4: when roll and pitch are both below 2 or above 358 the accumulation
    is applied, and a terrain mask with exactly one active pixel raises the
    terrain channel (channel 2) of that pixel's world cell by exactly 255;
    outside this condition the map is not touched. *)
Theorem gate_open_accumulates (Rover : RoverState) :
  (1 <= wm_shape0 (worldmap Rover) <= wm_shape1 (worldmap Rover))%Z ->
  ((roll Rover < 2 \/ roll Rover > 358) /\
   (pitch Rover < 2 \/ pitch Rover > 358) ->
   exists Rover',
     step Rover = Some Rover' /\
     accumulated Rover = Some (worldmap Rover') /\
     forall r c,
       nonzero (terrain Rover) = ([r], [c]) ->
       exists xw yw,
         world_points (terrain Rover) Rover = ([xw], [yw]) /\
         wm_cell (worldmap Rover') yw xw 2
         = (wm_cell (worldmap Rover) yw xw 2 + 255)%Z) /\
  (~ ((roll Rover < 2 \/ roll Rover > 358) /\
      (pitch Rover < 2 \/ pitch Rover > 358)) ->
   exists Rover',
     step Rover = Some Rover' /\ worldmap Rover' = worldmap Rover).
Proof.
  intro Hwf. split.
  - intro Hgate. apply gate_open_true in Hgate.
    destruct (accumulate_total Rover Hwf) as [wm' Hacc].
    exists (settled Rover wm').
    split; [now rewrite perception_step_open, Hacc by assumption | ].
    split; [exact Hacc | ].
    intros r c Hone.
    destruct (accumulate_cells Rover wm' Hacc) as (_ & _ & Hc).
    pose proof (world_points_in_map (terrain Rover) Rover) as Hin.
    assert (Hlen : exists xw yw,
               world_points (terrain Rover) Rover = ([xw], [yw])).
    { unfold world_points, rover_coords. rewrite Hone. cbn [fst snd map].
      unfold pix_to_world, translate_pix, rotate_pix, Np.map2.
      cbn [combine map fst snd]. eauto. }
    destruct Hlen as (xw & yw & Hw). exists xw, yw.
    split; [exact Hw | ].
    destruct (Hc yw xw) as (_ & _ & H2). simpl worldmap. rewrite H2.
    rewrite Hw in *. cbn [fst snd] in *.
    replace (touched _ _ [yw] [xw] yw xw) with true; [reflexivity | ].
    symmetry. apply touched_in.
    + intros p Hp. specialize (Hin p Hwf Hp). lia.
    + simpl. now left.
  - intro Hgate.
    assert (Hclosed : gate_open Rover = false).
    { destruct (gate_open Rover) eqn:E; [ | reflexivity].
      apply gate_open_true in E. contradiction. }
    exists (settled Rover (worldmap Rover)).
    split; [now apply perception_step_closed | reflexivity].
Qed.

(** C1 (as the code has it): for every frame processed with the gate open,
    the cell of every world point of the obstacle, rock and terrain sets has
    channel 0, 1 and 2 respectively raised by exactly 255, once per frame
    however many points of the set fall on that cell; a cell that no point
    of the set falls on keeps its value in that channel. *)
Theorem accumulation_per_cell (Rover : RoverState) :
  (1 <= wm_shape0 (worldmap Rover) <= wm_shape1 (worldmap Rover))%Z ->
  (roll Rover < 2 \/ roll Rover > 358) /\
  (pitch Rover < 2 \/ pitch Rover > 358) ->
  exists Rover',
    step Rover = Some Rover' /\
    forall (m : mask) (ch : Z),
      (m = obstacle Rover /\ ch = 0%Z) \/
      (m = rocks Rover /\ ch = 1%Z) \/
      (m = terrain Rover /\ ch = 2%Z) ->
      forall y x,
        (In (y, x) (combine (snd (world_points m Rover))
                            (fst (world_points m Rover))) ->
         wm_cell (worldmap Rover') y x ch
         = (wm_cell (worldmap Rover) y x ch + 255)%Z) /\
        (~ In (y, x) (combine (snd (world_points m Rover))
                              (fst (world_points m Rover))) ->
         wm_cell (worldmap Rover') y x ch
         = wm_cell (worldmap Rover) y x ch).
Proof.
  intros Hwf Hgate. apply gate_open_true in Hgate.
  destruct (accumulate_total Rover Hwf) as [wm' Hacc].
  exists (settled Rover wm').
  split; [now rewrite perception_step_open, Hacc by assumption | ].
  destruct (accumulate_cells Rover wm' Hacc) as (_ & _ & Hc).
  intros m ch Hm y x. destruct (Hc y x) as (H0 & H1 & H2).
  simpl worldmap.
  assert (Hhit : touched (wm_shape0 (worldmap Rover))
                         (wm_shape1 (worldmap Rover))
                         (snd (world_points m Rover))
                         (fst (world_points m Rover)) y x = true
                 <-> In (y, x) (combine (snd (world_points m Rover))
                                        (fst (world_points m Rover)))).
  { apply touched_in. intros p Hp.
    pose proof (world_points_in_map m Rover p Hwf Hp). lia. }
  destruct Hm as [[-> ->] | [[-> ->] | [-> ->]]];
    [rewrite H0 | rewrite H1 | rewrite H2]; clear H0 H1 H2 Hc;
    (split; intro Hin;
     [rewrite (proj2 Hhit Hin); reflexivity
     | match type of Hhit with
       | ?t = true <-> _ => destruct t
       end; [exfalso; apply Hin, Hhit; reflexivity | lia]]).
Qed.

(** C9: over successive invocations on the same rover state no cell of any
    channel of the world map ever decreases, and on a map with at least one
    row and at least as many columns as rows every invocation returns. *)
Theorem worldmap_monotone (frames : list Telemetry) (Rover : RoverState) :
  (forall Rover',
     run matrix getPerspectiveTransform warpPerspective frames Rover
     = Some Rover' ->
     forall y x c,
       (wm_cell (worldmap Rover) y x c
        <= wm_cell (worldmap Rover') y x c)%Z) /\
  ((1 <= wm_shape0 (worldmap Rover) <= wm_shape1 (worldmap Rover))%Z ->
   exists Rover',
     run matrix getPerspectiveTransform warpPerspective frames Rover
     = Some Rover').
Proof.
  revert Rover. induction frames as [ | t rest IH]; intro Rover; simpl.
  - split.
    + intros Rover' H. inversion H. intros. lia.
    + eauto.
  - destruct (step (receive t Rover)) as [Rover1 | ] eqn:E.
    + destruct (perception_step_monotone _ _ E) as (S0 & S1 & Hmono).
      simpl in S0, S1, Hmono.
      destruct (IH Rover1) as [IHm IHt]. split.
      * intros Rover' H y x c.
        specialize (IHm Rover' H y x c). specialize (Hmono y x c). lia.
      * intro Hwf. apply IHt. lia.
    + split; [discriminate | ].
      intro Hwf.
      destruct (perception_step_total (receive t Rover)) as [R1 HR1];
        [exact Hwf | congruence].
Qed.

(** C10: every x coordinate returned by [rover_coords] lies in [[1, H]],
    [H] the image height, so it is strictly positive; hence every angle in
    [nav_angles] and [rocks_angles] left by [perception_step] lies strictly
    between -pi/2 and pi/2. *)
Theorem cues_point_forward :
  (forall (m : mask) (x : R),
     In x (fst (rover_coords m)) -> 1 <= x <= IZR (shape0 m)) /\
  (forall Rover Rover' : RoverState,
     step Rover = Some Rover' ->
     Forall (fun a => - (PI / 2) < a < PI / 2) (nav_angles Rover') /\
     Forall (fun a => - (PI / 2) < a < PI / 2) (rocks_angles Rover')).
Proof.
  split; [exact rover_coords_x_range | ].
  intros Rover Rover' H. apply perception_step_some in H. rewrite H.
  simpl.
  split; apply Forall_forall; intros a Ha;
    apply in_map2 in Ha; destruct Ha as (y & x & _ & Hx & ->);
    apply arctan2_forward; apply rover_coords_x_range in Hx; lra.
Qed.

End PerceptionProperties.

(** ** Concrete runs *)

(** The two bright pixels of [twin_frame] are both terrain; seen from the
    origin with scale 30 they fall on the same world cell. *)
Lemma twin_terrain_mask (roll pitch : R) :
  terrain_mask unit plain_matrix plain_warp
               (sample_rover twin_frame roll pitch)
  = [[1; 1]%Z].
Proof. reflexivity. Qed.

Lemma twin_rover_coords : rover_coords [[1; 1]%Z] = ([1; 1], [1; 0]).
Proof.
  unfold rover_coords, nonzero. cbn. f_equal; repeat f_equal; lra.
Qed.

Lemma twin_world_points (roll pitch : R) :
  world_points [[1; 1]%Z] (sample_rover twin_frame roll pitch)
  = ([0; 0]%Z, [0; 0]%Z).
Proof.
  unfold world_points. rewrite twin_rover_coords.
  cbn [sample_rover pos yaw worldmap blank_map wm_shape0 fst snd].
  unfold pix_to_world, translate_pix.
  rewrite rotate_pix_yaw0 by reflexivity. cbn [map].
  rewrite (int_between (1 / 30 + 0) 0) by lra.
  rewrite (int_between (0 / 30 + 0) 0) by lra.
  reflexivity.
Qed.

(** C1, counterexample: both terrain points of [twin_frame] fall on world
    cell (0, 0), yet one call with the gate open raises channel 2 of that
    cell from 0 to 255, not to 510. *)
Lemma repeated_hits_add_once :
  world_points (terrain_mask unit plain_matrix plain_warp
                             (sample_rover twin_frame 0 0))
               (sample_rover twin_frame 0 0)
  = ([0; 0]%Z, [0; 0]%Z) /\
  hits [0; 0]%Z [0; 0]%Z 0 0 = 2%nat /\
  wm_cell (worldmap (sample_rover twin_frame 0 0)) 0 0 2 = 0%Z /\
  exists Rover',
    perception_step unit plain_matrix plain_warp
                    (sample_rover twin_frame 0 0) = Some Rover' /\
    wm_cell (worldmap Rover') 0 0 2 = 255%Z.
Proof.
  rewrite twin_terrain_mask.
  split; [apply twin_world_points | ].
  split; [reflexivity | ]. split; [reflexivity | ].
  assert (Hwf : (1 <= wm_shape0 (worldmap (sample_rover twin_frame 0 0))
                 <= wm_shape1 (worldmap (sample_rover twin_frame 0 0)))%Z)
    by (simpl; lia).
  destruct (accumulate_total unit plain_matrix plain_warp _ Hwf)
    as [wm' Hacc].
  exists (settle unit plain_matrix plain_warp
                 (sample_rover twin_frame 0 0) wm').
  split.
  - rewrite perception_step_open, Hacc; [reflexivity | ].
    apply gate_open_true. simpl. lra.
  - destruct (accumulate_cells unit plain_matrix plain_warp _ _ Hacc)
      as (_ & _ & Hc).
    destruct (Hc 0%Z 0%Z) as (_ & _ & H2).
    rewrite twin_terrain_mask, twin_world_points in H2.
    simpl worldmap. rewrite H2. reflexivity.
Qed.

Lemma accumulation_per_cell_witness :
  (1 <= wm_shape0 (worldmap (sample_rover twin_frame 0 0))
   <= wm_shape1 (worldmap (sample_rover twin_frame 0 0)))%Z /\
  ((roll (sample_rover twin_frame 0 0) < 2 \/
    roll (sample_rover twin_frame 0 0) > 358) /\
   (pitch (sample_rover twin_frame 0 0) < 2 \/
    pitch (sample_rover twin_frame 0 0) > 358)) /\
  exists Rover',
    perception_step unit plain_matrix plain_warp
                    (sample_rover twin_frame 0 0) = Some Rover' /\
    wm_cell (worldmap Rover') 0 0 2 = 255%Z.
Proof.
  assert (Hwf : (1 <= wm_shape0 (worldmap (sample_rover twin_frame 0 0))
                 <= wm_shape1 (worldmap (sample_rover twin_frame 0 0)))%Z)
    by (simpl; lia).
  assert (Hgate : (roll (sample_rover twin_frame 0 0) < 2 \/
                   roll (sample_rover twin_frame 0 0) > 358) /\
                  (pitch (sample_rover twin_frame 0 0) < 2 \/
                   pitch (sample_rover twin_frame 0 0) > 358))
    by (simpl; lra).
  split; [exact Hwf | ]. split; [exact Hgate | ].
  destruct (accumulation_per_cell unit plain_matrix plain_warp
              (sample_rover twin_frame 0 0) Hwf Hgate) as [Rover' [Hs Hc]].
  exists Rover'. split; [exact Hs | ].
  destruct (Hc [[1; 1]%Z] 2%Z (or_intror (or_intror (conj eq_refl eq_refl)))
               0%Z 0%Z) as [Hin _].
  rewrite twin_world_points in Hin.
  rewrite Hin; [reflexivity | simpl; now left].
Defined.

Lemma gate_closed_keeps_map_witness :
  (2 <= roll (sample_rover twin_frame 10 0) <= 358 \/
   2 <= pitch (sample_rover twin_frame 10 0) <= 358) /\
  exists Rover',
    perception_step unit plain_matrix plain_warp
                    (sample_rover twin_frame 10 0) = Some Rover' /\
    worldmap Rover' = worldmap (sample_rover twin_frame 10 0) /\
    nav_dists Rover'
    = fst (to_polar_coords [1; 1] [1; 0]).
Proof.
  assert (Hgate : 2 <= roll (sample_rover twin_frame 10 0) <= 358 \/
                  2 <= pitch (sample_rover twin_frame 10 0) <= 358)
    by (simpl; lra).
  split; [exact Hgate | ].
  destruct (gate_closed_keeps_map unit plain_matrix plain_warp
              (sample_rover twin_frame 10 0) Hgate)
    as (Rover' & Hs & Hwm & _ & Hd & _).
  exists Rover'. split; [exact Hs | ]. split; [exact Hwm | ].
  rewrite Hd, twin_terrain_mask, twin_rover_coords. reflexivity.
Defined.

Lemma gate_open_accumulates_witness :
  (1 <= wm_shape0 (worldmap (sample_rover single_frame 1 1))
   <= wm_shape1 (worldmap (sample_rover single_frame 1 1)))%Z /\
  ((roll (sample_rover single_frame 1 1) < 2 \/
    roll (sample_rover single_frame 1 1) > 358) /\
   (pitch (sample_rover single_frame 1 1) < 2 \/
    pitch (sample_rover single_frame 1 1) > 358)) /\
  nonzero (terrain_mask unit plain_matrix plain_warp
                        (sample_rover single_frame 1 1))
  = ([0%Z], [0%Z]) /\
  exists Rover' xw yw,
    perception_step unit plain_matrix plain_warp
                    (sample_rover single_frame 1 1) = Some Rover' /\
    world_points (terrain_mask unit plain_matrix plain_warp
                               (sample_rover single_frame 1 1))
                 (sample_rover single_frame 1 1) = ([xw], [yw]) /\
    wm_cell (worldmap Rover') yw xw 2
    = (wm_cell (worldmap (sample_rover single_frame 1 1)) yw xw 2 + 255)%Z.
Proof.
  assert (Hwf : (1 <= wm_shape0 (worldmap (sample_rover single_frame 1 1))
                 <= wm_shape1 (worldmap (sample_rover single_frame 1 1)))%Z)
    by (simpl; lia).
  assert (Hgate : (roll (sample_rover single_frame 1 1) < 2 \/
                   roll (sample_rover single_frame 1 1) > 358) /\
                  (pitch (sample_rover single_frame 1 1) < 2 \/
                   pitch (sample_rover single_frame 1 1) > 358))
    by (simpl; lra).
  assert (Hone : nonzero (terrain_mask unit plain_matrix plain_warp
                                       (sample_rover single_frame 1 1))
                 = ([0%Z], [0%Z])) by reflexivity.
  split; [exact Hwf | ]. split; [exact Hgate | ]. split; [exact Hone | ].
  destruct (gate_open_accumulates unit plain_matrix plain_warp
              (sample_rover single_frame 1 1) Hwf) as [Hopen _].
  destruct (Hopen Hgate) as (Rover' & Hs & _ & Hcell).
  destruct (Hcell 0%Z 0%Z Hone) as (xw & yw & Hw & Hc).
  exists Rover', xw, yw. auto.
Defined.

(** One call on the twin frame, seen from the origin of a map of 200 by 200
    cells with the gate open. *)
Lemma twin_step (Rover : RoverState) :
  img Rover = twin_frame -> pos Rover = (0, 0) -> yaw Rover = 0 ->
  wm_shape0 (worldmap Rover) = 200%Z -> wm_shape1 (worldmap Rover) = 200%Z ->
  gate_open Rover = true ->
  exists Rover',
    perception_step unit plain_matrix plain_warp Rover = Some Rover' /\
    wm_shape0 (worldmap Rover') = 200%Z /\
    wm_shape1 (worldmap Rover') = 200%Z /\
    wm_cell (worldmap Rover') 0 0 2
    = (wm_cell (worldmap Rover) 0 0 2 + 255)%Z.
Proof.
  intros Himg Hpos Hyaw H0 H1 Hgate.
  assert (Hwf : (1 <= wm_shape0 (worldmap Rover)
                 <= wm_shape1 (worldmap Rover))%Z) by lia.
  destruct (accumulate_total unit plain_matrix plain_warp Rover Hwf)
    as [wm' Hacc].
  exists (settle unit plain_matrix plain_warp Rover wm').
  split; [now rewrite perception_step_open, Hacc by assumption | ].
  destruct (accumulate_cells unit plain_matrix plain_warp _ _ Hacc)
    as (S0 & S1 & Hc).
  simpl worldmap.
  split; [congruence | ]. split; [congruence | ].
  destruct (Hc 0%Z 0%Z) as (_ & _ & H2). rewrite H2. f_equal.
  assert (Hmask : terrain_mask unit plain_matrix plain_warp Rover
                  = [[1; 1]%Z]).
  { unfold terrain_mask, rectified, perspect_transform, plain_warp.
    cbn [fst]. now rewrite Himg. }
  rewrite Hmask. unfold world_points.
  rewrite twin_rover_coords, Hpos, Hyaw, H0, H1.
  unfold pix_to_world, translate_pix.
  rewrite rotate_pix_yaw0 by reflexivity. cbn [map fst snd].
  rewrite (int_between (1 / 30 + 0) 0) by lra.
  rewrite (int_between (0 / 30 + 0) 0) by lra.
  reflexivity.
Qed.

(** Two level frames in a row on the sample rover: the run returns and the
    terrain channel of cell (0, 0) has grown by the weight once per frame. *)
Example two_frames_accumulate :
  exists Rover',
    run unit plain_matrix plain_warp
        [sample_frame twin_frame 0 0; sample_frame twin_frame 1 359]
        (sample_rover [] 0 0) = Some Rover' /\
    wm_cell (worldmap Rover') 0 0 2 = 510%Z.
Proof.
  simpl run.
  destruct (twin_step (receive (sample_frame twin_frame 0 0)
                               (sample_rover [] 0 0)))
    as (R1 & E1 & A0 & A1 & C1); try reflexivity.
  { apply gate_open_true. simpl. lra. }
  rewrite E1.
  destruct (twin_step (receive (sample_frame twin_frame 1 359) R1))
    as (R2 & E2 & _ & _ & C2); try reflexivity; try assumption.
  { apply gate_open_true. simpl. lra. }
  rewrite E2. exists R2. split; [reflexivity | ].
  rewrite C2. simpl worldmap. rewrite C1. reflexivity.
Qed.

(** * Further properties of the pipeline *)

(** ** The frame converter, pixel by pixel *)

Lemma nonzero_row_iff (r c0 : Z) (row : list Z) (p : Z * Z) :
  In p (nonzero_row r c0 row) <->
  fst p = r /\
  exists j v, snd p = (c0 + Z.of_nat j)%Z /\
              nth_error row j = Some v /\ v <> 0%Z.
Proof.
  revert c0. induction row as [ | v rest IH]; intro c0; simpl.
  - split; [contradiction | ].
    intros (_ & j & v & _ & Hj & _). destruct j; discriminate.
  - assert (Hrest : In p (nonzero_row r (c0 + 1) rest) <->
                    fst p = r /\
                    exists j w, snd p = (c0 + Z.of_nat (S j))%Z /\
                                nth_error rest j = Some w /\ w <> 0%Z).
    { rewrite IH. split; intros (Hr & j & w & Hc & Hj & Hw);
        (split; [exact Hr | exists j, w; repeat split; auto; lia]). }
    destruct (Z.eqb_spec v 0) as [Hv | Hv].
    + rewrite Hrest. split.
      * intros (Hr & j & w & Hc & Hj & Hw).
        split; [exact Hr | ]. exists (S j), w. auto.
      * intros (Hr & j & w & Hc & Hj & Hw).
        split; [exact Hr | ].
        destruct j as [ | j]; simpl in Hj.
        -- inversion Hj. congruence.
        -- exists j, w. auto.
    + simpl. rewrite Hrest. split.
      * intros [<- | (Hr & j & w & Hc & Hj & Hw)].
        -- split; [reflexivity | ].
           exists 0%nat, v. simpl. repeat split; auto; lia.
        -- split; [exact Hr | ]. exists (S j), w. auto.
      * intros (Hr & j & w & Hc & Hj & Hw).
        destruct j as [ | j]; simpl in Hj.
        -- left. destruct p as [pr pc]. simpl in *. f_equal; lia.
        -- right. split; [exact Hr | ]. exists j, w. auto.
Qed.

Lemma nonzero_from_iff (r0 : Z) (m : mask) (p : Z * Z) :
  In p (nonzero_from r0 m) <->
  exists i j, fst p = (r0 + Z.of_nat i)%Z /\ snd p = Z.of_nat j /\
              active m i j.
Proof.
  revert r0. induction m as [ | row rest IH]; intro r0; simpl.
  - split; [contradiction | ].
    intros (i & j & _ & _ & v & Hv & _). unfold item in Hv.
    destruct i; discriminate.
  - rewrite in_app_iff, nonzero_row_iff, IH. unfold active, item. split.
    + intros [(Hr & j & v & Hc & Hj & Hv) | (i & j & Hr & Hc & Hact)].
      * exists 0%nat, j. simpl. repeat split; try lia. exists v. auto.
      * exists (S i), j. simpl nth_error. repeat split; try lia.
        exact Hact.
    + intros (i & j & Hr & Hc & v & Hitem & Hv).
      destruct i as [ | i]; simpl in Hitem.
      * left. split; [lia | ]. exists j, v. repeat split; auto; lia.
      * right. exists i, j. repeat split; try lia. exists v. auto.
Qed.

Lemma combine_map_fst_snd {A B C D : Type} (f : A -> C) (g : B -> D)
  (l : list (A * B)) :
  combine (map f (map fst l)) (map g (map snd l))
  = map (fun p => (f (fst p), g (snd p))) l.
Proof.
  induction l as [ | p l IH]; simpl; [reflexivity | now rewrite IH].
Qed.

Lemma rover_coords_points (m : mask) :
  combine (fst (rover_coords m)) (snd (rover_coords m))
  = map (fun p => (- IZR (fst p - shape0 m),
                   - (IZR (snd p) - IZR (shape1 m) / 2)))
        (nonzero_from 0 m).
Proof.
  unfold rover_coords, nonzero. cbn [fst snd].
  apply (combine_map_fst_snd (fun y => - IZR (y - shape0 m))
           (fun x => - (IZR x - IZR (shape1 m) / 2))).
Qed.

(** X5: the points returned by [rover_coords] are exactly the active
    pixels of the mask: the pixel in row [i] and column [j] appears as
    [(H - i, W/2 - j)], and nothing else is returned. *)
Theorem rover_coords_pixels (m : mask) (x y : R) :
  In (x, y) (combine (fst (rover_coords m)) (snd (rover_coords m))) <->
  exists i j : nat,
    active m i j /\
    x = IZR (shape0 m) - INR i /\ y = IZR (shape1 m) / 2 - INR j.
Proof.
  rewrite rover_coords_points, in_map_iff. split.
  - intros (p & E & Hp). apply nonzero_from_iff in Hp.
    destruct Hp as (i & j & Hr & Hc & Hact).
    exists i, j. split; [exact Hact | ].
    inversion E. rewrite Hr, Hc, !INR_IZR_INZ, minus_IZR, plus_IZR.
    split; simpl; lra.
  - intros (i & j & Hact & -> & ->).
    exists (Z.of_nat i, Z.of_nat j). split.
    + cbn [fst snd]. rewrite !INR_IZR_INZ, minus_IZR. f_equal; lra.
    + apply nonzero_from_iff. exists i, j. simpl. auto.
Qed.

(** An all-zero (or empty) mask has no point; any active pixel gives one. *)
Lemma rover_coords_empty (m : mask) :
  (forall i j, ~ active m i j) <-> rover_coords m = ([], []).
Proof.
  unfold rover_coords, nonzero. split.
  - intro Hnone. destruct (nonzero_from 0 m) as [ | p l] eqn:E;
      [reflexivity | exfalso].
    assert (Hin : In p (nonzero_from 0 m)) by (rewrite E; now left).
    apply nonzero_from_iff in Hin.
    destruct Hin as (i & j & _ & _ & Hact). exact (Hnone i j Hact).
  - intros H i j Hact.
    assert (Hin : In (Z.of_nat i, Z.of_nat j) (nonzero_from 0 m)).
    { apply nonzero_from_iff. exists i, j. simpl. auto. }
    destruct (nonzero_from 0 m); [contradiction | discriminate].
Qed.

(** X6: on a rectangular mask of width [W] every y coordinate returned by
    [rover_coords] lies in the interval (-W/2, W/2]: columns left of the
    centre are positive, the centre column (even [W]) is 0. *)
Theorem rover_coords_y_range (m : mask) (y : R) :
  rectangular m ->
  In y (snd (rover_coords m)) ->
  - (IZR (shape1 m) / 2) < y <= IZR (shape1 m) / 2.
Proof.
  intros Hrect Hin. unfold rover_coords, nonzero in Hin. cbn [snd] in Hin.
  apply in_map_iff in Hin. destruct Hin as (c & <- & Hin).
  apply in_map_iff in Hin. destruct Hin as (p & <- & Hin).
  apply nonzero_from_iff in Hin.
  destruct Hin as (i & j & _ & Hc & v & Hitem & _).
  unfold item in Hitem.
  destruct (nth_error m i) as [row | ] eqn:Hrow; [ | discriminate].
  apply nth_error_In in Hrow.
  unfold rectangular in Hrect. rewrite Forall_forall in Hrect.
  specialize (Hrect row Hrow).
  assert (Hj : (j < length row)%nat)
    by (apply nth_error_Some; congruence).
  rewrite Hc.
  assert (H0 : 0 <= IZR (Z.of_nat j)) by (apply IZR_le; lia).
  assert (H1 : IZR (Z.of_nat j) < IZR (shape1 m))
    by (apply IZR_lt; lia).
  lra.
Qed.

Lemma rover_coords_y_range_witness :
  rectangular [[0; 0; 0; 1]%Z] /\
  In (-1) (snd (rover_coords [[0; 0; 0; 1]%Z])) /\
  - (IZR (shape1 [[0; 0; 0; 1]%Z]) / 2) < -1
  <= IZR (shape1 [[0; 0; 0; 1]%Z]) / 2.
Proof.
  assert (Hrect : rectangular [[0; 0; 0; 1]%Z])
    by (repeat constructor).
  assert (Hin : In (-1) (snd (rover_coords [[0; 0; 0; 1]%Z]))).
  { unfold rover_coords, nonzero. cbn. left. lra. }
  split; [exact Hrect | ]. split; [exact Hin | ].
  exact (rover_coords_y_range [[0; 0; 0; 1]%Z] (-1) Hrect Hin).
Defined.

Lemma nonzero_row_NoDup (r c : Z) (row : list Z) :
  NoDup (nonzero_row r c row).
Proof.
  revert c. induction row as [ | v rest IH]; intro c; simpl.
  - constructor.
  - destruct (v =? 0)%Z; [apply IH | ].
    constructor; [ | apply IH].
    intro Hin. apply nonzero_row_in in Hin. simpl in Hin. lia.
Qed.

Lemma nonzero_from_NoDup (r : Z) (m : mask) : NoDup (nonzero_from r m).
Proof.
  revert r. induction m as [ | row rest IH]; intro r; simpl.
  - constructor.
  - apply NoDup_app; [apply nonzero_row_NoDup | apply IH | ].
    intros p Hrow Hrest.
    apply nonzero_row_in in Hrow. apply nonzero_from_in in Hrest. lia.
Qed.

Lemma NoDup_map_injective {A B : Type} (f : A -> B) (l : list A) :
  (forall a b, f a = f b -> a = b) -> NoDup l -> NoDup (map f l).
Proof.
  intros Hinj Hl. induction Hl as [ | a l Ha Hl IH]; simpl; constructor.
  - intro Hin. apply in_map_iff in Hin. destruct Hin as (b & E & Hb).
    apply Hinj in E. now subst.
  - exact IH.
Qed.

(** X7: [rover_coords] returns every active pixel once: the coordinate
    pairs are pairwise distinct, and there are as many as the mask has
    nonzero entries. *)
Theorem rover_coords_distinct (m : mask) :
  NoDup (combine (fst (rover_coords m)) (snd (rover_coords m))) /\
  length (fst (rover_coords m)) = length (fst (nonzero m)) /\
  length (snd (rover_coords m)) = length (fst (nonzero m)).
Proof.
  split.
  - rewrite rover_coords_points.
    apply NoDup_map_injective; [ | apply nonzero_from_NoDup].
    intros [r1 c1] [r2 c2] E. cbn [fst snd] in E. inversion E as [[E1 E2]].
    assert (IZR (r1 - shape0 m) = IZR (r2 - shape0 m)) by lra.
    assert (IZR c1 = IZR c2) by lra.
    f_equal; [ | now apply eq_IZR].
    assert (r1 - shape0 m = r2 - shape0 m)%Z by now apply eq_IZR.
    lia.
  - unfold rover_coords, nonzero. cbn [fst snd].
    now rewrite !length_map.
Qed.

(** ** The three classifiers together *)

Lemma active_rock_thresh img r c p :
  item img r c = Some p ->
  active (rock_thresh img) r c <->
  (100 < chan0 p < 255 /\ 100 < chan1 p < 255 /\ 20 < chan2 p < 30)%Z.
Proof.
  intro Hp. unfold active, rock_thresh.
  rewrite item_map_map, Hp. cbn [option_map fst snd].
  destruct (Z.gtb_spec (chan0 p) 100); destruct (Z.ltb_spec (chan0 p) 255);
    destruct (Z.gtb_spec (chan1 p) 100);
    destruct (Z.ltb_spec (chan1 p) 255);
    destruct (Z.gtb_spec (chan2 p) 20); destruct (Z.ltb_spec (chan2 p) 30);
    cbn [andb];
    (split; [intros [v [E Hv]]; inversion E; subst v; lia
            | intro G; first [lia | exists 1%Z; split; [reflexivity | lia]]]).
Qed.

(** X8: a rock pixel is never a terrain pixel: for the default threshold,
    and for any terrain threshold whose blue bound is at least 29, no pixel
    is active in both the rock mask and the terrain mask. *)
Theorem rock_terrain_disjoint img t r c :
  (29 <= snd t)%Z ->
  ~ (active (rock_thresh img) r c /\ active (color_thresh img t) r c).
Proof.
  intros Ht [Hrock Hterrain].
  destruct (active_in_frame _ _ _ _ Hrock) as [p Hp].
  apply (active_rock_thresh _ _ _ _ Hp) in Hrock.
  apply (active_color_thresh _ _ _ _ _ Hp) in Hterrain. lia.
Qed.

Lemma rock_terrain_disjoint_witness :
  (29 <= snd default_rgb_thresh)%Z /\
  ~ (active (rock_thresh [[(200, 200, 25)%Z]]) 0 0 /\
     active (color_thresh [[(200, 200, 25)%Z]] default_rgb_thresh) 0 0).
Proof.
  assert (H : (29 <= snd default_rgb_thresh)%Z) by (simpl; lia).
  split; [exact H | ].
  exact (rock_terrain_disjoint [[(200, 200, 25)%Z]] default_rgb_thresh
                               0%nat 0%nat H).
Defined.

(** X9: the rock and obstacle classes do overlap: a rock pixel is an
    obstacle pixel as well (default threshold) exactly when its red and
    green values are both below 160, and then it is written to channels 0
    and 1. *)
Theorem rock_may_be_obstacle img r c p :
  item img r c = Some p ->
  active (rock_thresh img) r c ->
  (active (obstacle_thresh img default_rgb_thresh) r c <->
   (chan0 p < 160 /\ chan1 p < 160)%Z).
Proof.
  intros Hp Hrock.
  apply (active_rock_thresh _ _ _ _ Hp) in Hrock.
  rewrite (active_obstacle_thresh _ _ _ _ _ Hp). simpl. lia.
Qed.

Lemma rock_may_be_obstacle_witness :
  active (rock_thresh [[(120, 120, 25)%Z]]) 0 0 /\
  active (obstacle_thresh [[(120, 120, 25)%Z]] default_rgb_thresh) 0 0.
Proof.
  assert (Hp : item [[(120, 120, 25)%Z]] 0 0 = Some (120, 120, 25)%Z)
    by reflexivity.
  assert (Hrock : active (rock_thresh [[(120, 120, 25)%Z]]) 0 0)
    by (exists 1%Z; split; [reflexivity | lia]).
  split; [exact Hrock | ].
  apply (rock_may_be_obstacle _ _ _ _ Hp Hrock).
  unfold chan0, chan1. simpl. lia.
Defined.

Lemma map_map_shape {A B : Type} (f : A -> B) (a : list (list A)) :
  shape0 (map (map f) a) = shape0 a /\
  shape1 (map (map f) a) = shape1 a /\
  (rectangular a -> rectangular (map (map f) a)).
Proof.
  split; [unfold shape0; now rewrite length_map | ].
  assert (H1 : shape1 (map (map f) a) = shape1 a).
  { destruct a as [ | row a]; simpl; [reflexivity | ].
    now rewrite length_map. }
  split; [exact H1 | ].
  unfold rectangular. rewrite H1, !Forall_forall.
  intros Hrect row Hrow. apply in_map_iff in Hrow.
  destruct Hrow as (row0 & <- & Hrow0).
  rewrite length_map. now apply Hrect.
Qed.

Lemma indicator_mask (b : pixel -> bool) (img : image) :
  let m := map (map (fun p => if b p then 1%Z else 0%Z)) img in
  shape0 m = shape0 img /\ shape1 m = shape1 img /\
  (rectangular img -> rectangular m) /\
  forall r c v, item m r c = Some v -> v = 0%Z \/ v = 1%Z.
Proof.
  intro m. subst m.
  destruct (map_map_shape (fun p => if b p then 1%Z else 0%Z) img)
    as (H0 & H1 & Hrect).
  repeat (split; [assumption | ]).
  intros r c v Hv. rewrite item_map_map in Hv.
  destruct (item img r c) as [p | ]; [ | discriminate].
  cbn [option_map] in Hv. inversion Hv. destruct (b p); auto.
Qed.

(** X10: each classifier returns a binary mask of the shape of the frame:
    the same number of rows and columns, rectangular if the frame is, every
    entry 0 or 1. *)
Theorem classifiers_binary_same_shape (img : image) (t : Z * Z * Z) :
  Forall (fun m : mask =>
            shape0 m = shape0 img /\ shape1 m = shape1 img /\
            (rectangular img -> rectangular m) /\
            forall r c v, item m r c = Some v -> v = 0%Z \/ v = 1%Z)
         [color_thresh img t; obstacle_thresh img t; rock_thresh img].
Proof.
  unfold color_thresh, obstacle_thresh, rock_thresh.
  constructor; [exact (indicator_mask _ img) | ].
  constructor; [exact (indicator_mask _ img) | ].
  constructor; [exact (indicator_mask _ img) | constructor].
Qed.

(** X11: raising the threshold can only shrink the terrain mask and grow
    the obstacle mask: for thresholds [t <= t'] channel by channel, terrain
    under [t'] is terrain under [t], and an obstacle under [t] is an
    obstacle under [t']. *)
Theorem thresholds_monotone img (t t' : Z * Z * Z) r c :
  (fst (fst t) <= fst (fst t') /\ snd (fst t) <= snd (fst t')
   /\ snd t <= snd t')%Z ->
  (active (color_thresh img t') r c -> active (color_thresh img t) r c) /\
  (active (obstacle_thresh img t) r c ->
   active (obstacle_thresh img t') r c).
Proof.
  intro Hle. split; intro Hact;
    destruct (active_in_frame _ _ _ _ Hact) as [p Hp].
  - apply (active_color_thresh _ _ _ _ _ Hp) in Hact.
    apply (active_color_thresh _ _ _ _ _ Hp). lia.
  - apply (active_obstacle_thresh _ _ _ _ _ Hp) in Hact.
    apply (active_obstacle_thresh _ _ _ _ _ Hp). lia.
Qed.

Lemma thresholds_monotone_witness :
  active (color_thresh [[bright]] (180, 180, 180)%Z) 0 0 /\
  active (color_thresh [[bright]] default_rgb_thresh) 0 0.
Proof.
  assert (Hle : (fst (fst default_rgb_thresh) <= fst (fst (180, 180, 180))
                 /\ snd (fst default_rgb_thresh) <= snd (fst (180, 180, 180))
                 /\ snd default_rgb_thresh <= snd (180, 180, 180))%Z)
    by (simpl; lia).
  assert (Hact : active (color_thresh [[bright]] (180, 180, 180)%Z) 0 0)
    by (exists 1%Z; split; [reflexivity | lia]).
  split; [exact Hact | ].
  exact (proj1 (thresholds_monotone [[bright]] default_rgb_thresh
                  (180, 180, 180)%Z 0%nat 0%nat Hle) Hact).
Defined.

(** ** The world projection on the map *)




(** ** What a call reads and what it leaves behind *)

Lemma index_ok_empty_axis (n i : Z) : (n <= 0)%Z -> index_ok n i = false.
Proof.
  intro Hn. unfold index_ok.
  destruct (Z.leb_spec (- n) i); destruct (Z.ltb_spec i n);
    simpl; try reflexivity; lia.
Qed.

(** Any index array at all raises on a map without rows. *)
Lemma iadd_at_empty_axis wm ys xs ch w :
  (wm_shape0 wm <= 0)%Z -> combine ys xs <> [] ->
  iadd_at wm ys xs ch w = None.
Proof.
  intros Hn Hne. unfold iadd_at, gather.
  destruct (combine ys xs) as [ | p l]; [congruence | ].
  simpl forallb. now rewrite index_ok_empty_axis.
Qed.

Lemma iadd_at_divides wm ys xs ch w wm' (d : Z) :
  (d | w)%Z -> iadd_at wm ys xs ch w = Some wm' ->
  (forall y x c, (d | wm_cell wm y x c)%Z) ->
  forall y x c, (d | wm_cell wm' y x c)%Z.
Proof.
  intros Hw H Hall y x c.
  destruct (iadd_at_cells _ _ _ _ _ _ H) as (_ & _ & Hc). rewrite Hc.
  destruct ((c =? ch)%Z && touched _ _ ys xs y x)%bool; [ | apply Hall].
  apply Z.divide_add_r; [apply Hall | exact Hw].
Qed.

Lemma world_points_nonempty (m : mask) (Rover : RoverState) :
  (exists i j, active m i j) ->
  combine (snd (world_points m Rover)) (fst (world_points m Rover)) <> [].
Proof.
  intros (i & j & Hact) Hnil.
  assert (Hlen : length (combine (snd (world_points m Rover))
                                 (fst (world_points m Rover)))
                 = length (fst (rover_coords m))).
  { unfold world_points.
    destruct (pix_to_world_length (fst (rover_coords m))
                (snd (rover_coords m)) (fst (pos Rover)) (snd (pos Rover))
                (yaw Rover) (wm_shape0 (worldmap Rover)) 30
                (rover_coords_length m)) as [L1 L2].
    rewrite length_combine, L1, L2, <- rover_coords_length. lia. }
  rewrite Hnil in Hlen. cbn [length] in Hlen.
  destruct (rover_coords m) as [xs ys] eqn:E. cbn [fst] in Hlen.
  destruct xs; [ | simpl in Hlen; discriminate].
  pose proof (rover_coords_length m) as Hl. rewrite E in Hl.
  cbn [fst snd] in Hl. destruct ys; [ | simpl in Hl; discriminate].
  exact (proj2 (rover_coords_empty m) E i j Hact).
Qed.

Lemma world_points_empty (m : mask) (Rover : RoverState) :
  (forall i j, ~ active m i j) -> world_points m Rover = ([], []).
Proof.
  intro Hnone. apply (proj1 (rover_coords_empty m)) in Hnone.
  unfold world_points. now rewrite Hnone.
Qed.

Section PerceptionFurther.

Variable matrix : Type.
Variable getPerspectiveTransform : list (R * R) -> list (R * R) -> matrix.
Variable warpPerspective :
  forall A : Type, list (list A) -> matrix -> Z * Z -> list (list A).

Abbreviation step' := (perception_step matrix getPerspectiveTransform
                                       warpPerspective).
Abbreviation terrain' := (terrain_mask matrix getPerspectiveTransform
                                       warpPerspective).
Abbreviation obstacle' := (obstacle_mask matrix getPerspectiveTransform
                                         warpPerspective).
Abbreviation rocks' := (rock_mask matrix getPerspectiveTransform
                                  warpPerspective).
Abbreviation accumulated' := (accumulate matrix getPerspectiveTransform
                                         warpPerspective).
Abbreviation settled' := (settle matrix getPerspectiveTransform
                                 warpPerspective).
Abbreviation run' := (run matrix getPerspectiveTransform warpPerspective).

(** The masks of a call are functions of the frame alone. *)
Lemma masks_from_frame (R1 R2 : RoverState) :
  img R1 = img R2 ->
  terrain' R1 = terrain' R2 /\ obstacle' R1 = obstacle' R2 /\
  rocks' R1 = rocks' R2.
Proof.
  intro H. unfold terrain_mask, obstacle_mask, rock_mask, rectified.
  rewrite H. auto.
Qed.

(** X13: a call that returns has not touched what the telemetry layer
    wrote (frame, position, yaw, roll, pitch), and the world map keeps its
    shape. *)
Theorem perception_step_keeps_inputs (Rover Rover' : RoverState) :
  step' Rover = Some Rover' ->
  img Rover' = img Rover /\ pos Rover' = pos Rover /\
  yaw Rover' = yaw Rover /\ roll Rover' = roll Rover /\
  pitch Rover' = pitch Rover /\
  wm_shape0 (worldmap Rover') = wm_shape0 (worldmap Rover) /\
  wm_shape1 (worldmap Rover') = wm_shape1 (worldmap Rover).
Proof.
  intro H.
  destruct (perception_step_monotone _ _ _ _ _ H) as (S0 & S1 & _).
  apply perception_step_some in H. rewrite H. simpl.
  rewrite H in S0, S1. simpl in S0, S1. auto 10.
Qed.

(** X14: the navigation cues and the vision overlay left by a call depend
    on the camera frame and on nothing else: two calls on the same frame,
    whatever the pose, the attitude, the map and the previous cues, leave
    the same cues and the same overlay. *)
Theorem cues_from_frame_only (R1 R2 R1' R2' : RoverState) :
  img R1 = img R2 ->
  step' R1 = Some R1' -> step' R2 = Some R2' ->
  nav_dists R1' = nav_dists R2' /\ nav_angles R1' = nav_angles R2' /\
  rocks_dists R1' = rocks_dists R2' /\ rocks_angles R1' = rocks_angles R2'
  /\ vision_image R1' = vision_image R2'.
Proof.
  intros Himg H1 H2.
  apply perception_step_some in H1. apply perception_step_some in H2.
  destruct (masks_from_frame R1 R2 Himg) as (Ht & Ho & Hr).
  rewrite H1, H2. unfold settle. cbn [nav_dists nav_angles rocks_dists
    rocks_angles vision_image].
  rewrite Ht, Ho, Hr. auto.
Qed.

(** X15: with the gate closed a call is idempotent: calling again on the
    state it left returns that same state. *)
Theorem gate_closed_idempotent (Rover : RoverState) :
  2 <= roll Rover <= 358 \/ 2 <= pitch Rover <= 358 ->
  exists Rover', step' Rover = Some Rover' /\ step' Rover' = Some Rover'.
Proof.
  intro Hgate. apply gate_open_false in Hgate.
  exists (settled' Rover (worldmap Rover)).
  split; [now apply perception_step_closed | ].
  rewrite perception_step_closed; [reflexivity | exact Hgate].
Qed.

Lemma hypot_ge_x (x y : R) : 0 <= x -> x <= sqrt (x ^ 2 + y ^ 2).
Proof.
  intro Hx. rewrite <- (sqrt_pow2 x Hx) at 1.
  apply sqrt_le_1_alt. pose proof (pow2_ge_0 y). lra.
Qed.

(** X16: no cue is nearer than one pixel: every distance in [nav_dists]
    and [rocks_dists] is at least 1, so a distance of zero never reaches
    the controller. *)
Theorem cue_distances_at_least_one (Rover Rover' : RoverState) :
  step' Rover = Some Rover' ->
  Forall (fun d => 1 <= d) (nav_dists Rover') /\
  Forall (fun d => 1 <= d) (rocks_dists Rover').
Proof.
  intro H. apply perception_step_some in H. rewrite H.
  unfold settle. cbn [nav_dists rocks_dists to_polar_coords fst].
  split; apply Forall_forall; intros d Hd;
    apply in_map2 in Hd; destruct Hd as (x & y & Hx & _ & ->);
    apply rover_coords_x_range in Hx;
    pose proof (hypot_ge_x x y); lra.
Qed.

(** X17: the cue arrays have one entry per active pixel of their mask;
    a frame without terrain pixels leaves [nav_dists] and [nav_angles]
    empty and the terrain channel of the map as it was, gate open or
    not. *)
Theorem cues_follow_terrain (Rover Rover' : RoverState) :
  step' Rover = Some Rover' ->
  length (nav_dists Rover') = length (fst (nonzero (terrain' Rover))) /\
  length (nav_angles Rover') = length (fst (nonzero (terrain' Rover))) /\
  length (rocks_dists Rover') = length (fst (nonzero (rocks' Rover))) /\
  length (rocks_angles Rover') = length (fst (nonzero (rocks' Rover))) /\
  ((forall i j, ~ active (terrain' Rover) i j) ->
   nav_dists Rover' = [] /\ nav_angles Rover' = [] /\
   forall y x,
     wm_cell (worldmap Rover') y x 2 = wm_cell (worldmap Rover) y x 2).
Proof.
  intro H. pose proof (perception_step_some _ _ _ _ _ H) as Hs.
  assert (Hlen : forall m : mask,
             length (fst (to_polar_coords (fst (rover_coords m))
                                          (snd (rover_coords m))))
             = length (fst (nonzero m)) /\
             length (snd (to_polar_coords (fst (rover_coords m))
                                          (snd (rover_coords m))))
             = length (fst (nonzero m))).
  { intro m. unfold to_polar_coords. cbn [fst snd].
    rewrite !map2_length by (now rewrite rover_coords_length).
    rewrite <- rover_coords_length.
    unfold rover_coords, nonzero. cbn [fst snd].
    now rewrite !length_map. }
  assert (Hcues :
            nav_dists Rover'
            = fst (to_polar_coords (fst (rover_coords (terrain' Rover)))
                                   (snd (rover_coords (terrain' Rover)))) /\
            nav_angles Rover'
            = snd (to_polar_coords (fst (rover_coords (terrain' Rover)))
                                   (snd (rover_coords (terrain' Rover)))) /\
            rocks_dists Rover'
            = fst (to_polar_coords (fst (rover_coords (rocks' Rover)))
                                   (snd (rover_coords (rocks' Rover)))) /\
            rocks_angles Rover'
            = snd (to_polar_coords (fst (rover_coords (rocks' Rover)))
                                   (snd (rover_coords (rocks' Rover)))))
    by (rewrite Hs; repeat split; reflexivity).
  destruct Hcues as (Hnd & Hna & Hrd & Hra).
  rewrite Hnd, Hna, Hrd, Hra.
  repeat (split; [apply Hlen | ]).
  intro Hnone.
  rewrite (proj1 (rover_coords_empty _) Hnone).
  split; [reflexivity | ]. split; [reflexivity | ].
  intros y x. rewrite perception_step_unfold in H.
  destruct (gate_open Rover).
  - destruct (accumulated' Rover) as [wm | ] eqn:E; [ | discriminate].
    inversion H as [Hwm]. cbn [worldmap settle].
    destruct (accumulate_cells _ _ _ _ _ E) as (_ & _ & Hc).
    destruct (Hc y x) as (_ & _ & H2).
    rewrite (world_points_empty _ Rover Hnone) in H2.
    unfold touched in H2. cbn [fst snd combine existsb] in H2.
    rewrite H2. lia.
  - inversion H as [Hwm]. reflexivity.
Qed.

(** X18: a map without rows cannot take a single point: with the gate open
    and at least one pixel in any of the three masks the call raises
    instead of returning. *)
Theorem empty_map_raises (Rover : RoverState) :
  (wm_shape0 (worldmap Rover) <= 0)%Z ->
  (roll Rover < 2 \/ roll Rover > 358) /\
  (pitch Rover < 2 \/ pitch Rover > 358) ->
  (exists i j, active (obstacle' Rover) i j \/ active (rocks' Rover) i j
               \/ active (terrain' Rover) i j) ->
  step' Rover = None.
Proof.
  intros Hn Hgate (i & j & Hact). apply gate_open_true in Hgate.
  rewrite perception_step_unfold, Hgate.
  assert (Hacc : accumulated' Rover = None); [ | now rewrite Hacc].
  unfold accumulate.
  destruct (iadd_at (worldmap Rover) _ _ 0 255) as [wm0 | ] eqn:E0;
    [ | reflexivity].
  destruct (iadd_at_cells _ _ _ _ _ _ E0) as (A0 & _ & _).
  destruct (iadd_at wm0 _ _ 1 255) as [wm1 | ] eqn:E1; [ | reflexivity].
  destruct (iadd_at_cells _ _ _ _ _ _ E1) as (B0 & _ & _).
  destruct Hact as [Ha | [Ha | Ha]].
  - rewrite iadd_at_empty_axis in E0;
      [discriminate | exact Hn | apply world_points_nonempty; eauto].
  - rewrite iadd_at_empty_axis in E1;
      [discriminate | lia | apply world_points_nonempty; eauto].
  - apply iadd_at_empty_axis;
      [lia | apply world_points_nonempty; eauto].
Qed.

Lemma masks_binary (Rover : RoverState) :
  Forall (fun m : mask =>
            forall r c v, item m r c = Some v -> v = 0%Z \/ v = 1%Z)
         [obstacle' Rover; rocks' Rover; terrain' Rover].
Proof.
  unfold obstacle_mask, rock_mask, terrain_mask, color_thresh,
    obstacle_thresh, rock_thresh.
  constructor; [apply (indicator_mask _ _) | ].
  constructor; [apply (indicator_mask _ _) | ].
  constructor; [apply (indicator_mask _ _) | constructor].
Qed.

Lemma times_255_active (m : mask) (r c : nat) :
  (forall v, item m r c = Some v -> v = 0%Z \/ v = 1%Z) ->
  (item (map (map (fun v => (v * 255)%Z)) m) r c = Some 255%Z
   <-> active m r c) /\
  (forall w, item (map (map (fun v => (v * 255)%Z)) m) r c = Some w ->
             w = 0%Z \/ w = 255%Z).
Proof.
  intro Hbin. rewrite item_map_map. unfold active.
  destruct (item m r c) as [v | ]; cbn [option_map].
  - destruct (Hbin v eq_refl) as [-> | ->]; split.
    + split; [discriminate | intros (v & E & Hv); inversion E; lia].
    + intros w E. inversion E. auto.
    + split; [intros _; exists 1%Z; split; [reflexivity | lia]
             | reflexivity].
    + intros w E. inversion E. auto.
  - split; [split; [discriminate | intros (v & E & _); discriminate]
           | discriminate].
Qed.

(** X19: the vision overlay left by a call shows exactly the three masks:
    planes 0, 1 and 2 hold 255 where the obstacle, rock and terrain mask
    is active and 0 elsewhere, whatever the overlay held before. *)
Theorem overlay_shows_masks (Rover Rover' : RoverState) :
  step' Rover = Some Rover' ->
  Forall (fun pm : mask * mask =>
            forall r c,
              (item (fst pm) r c = Some 255%Z <-> active (snd pm) r c) /\
              (forall w, item (fst pm) r c = Some w ->
                         w = 0%Z \/ w = 255%Z))
         [(plane0 (vision_image Rover'), obstacle' Rover);
          (plane1 (vision_image Rover'), rocks' Rover);
          (plane2 (vision_image Rover'), terrain' Rover)].
Proof.
  intro H. apply perception_step_some in H. rewrite H.
  unfold settle. cbn [vision_image plane0 plane1 plane2].
  pose proof (masks_binary Rover) as Hbin.
  inversion Hbin as [ | mo lo Ho Hbin1]. subst.
  inversion Hbin1 as [ | mr lr Hr Hbin2]. subst.
  inversion Hbin2 as [ | mt lt Ht _]. subst.
  constructor; [intros r c; apply times_255_active; eauto | ].
  constructor; [intros r c; apply times_255_active; eauto | ].
  constructor; [intros r c; apply times_255_active; eauto | constructor].
Qed.

Lemma perception_step_divides (Rover Rover' : RoverState) :
  step' Rover = Some Rover' ->
  (forall y x c, (255 | wm_cell (worldmap Rover) y x c)%Z) ->
  forall y x c, (255 | wm_cell (worldmap Rover') y x c)%Z.
Proof.
  intros H Hall. rewrite perception_step_unfold in H.
  destruct (gate_open Rover).
  - destruct (accumulated' Rover) as [wm | ] eqn:E; [ | discriminate].
    inversion H as [Hwm]. cbn [worldmap settle].
    unfold accumulate in E.
    destruct (iadd_at (worldmap Rover) _ _ 0 255) as [wm0 | ] eqn:E0;
      [ | discriminate].
    destruct (iadd_at wm0 _ _ 1 255) as [wm1 | ] eqn:E1; [ | discriminate].
    assert (Hd : (255 | 255)%Z) by apply Z.divide_refl.
    apply (iadd_at_divides _ _ _ _ _ _ 255%Z Hd E).
    apply (iadd_at_divides _ _ _ _ _ _ 255%Z Hd E1).
    apply (iadd_at_divides _ _ _ _ _ _ 255%Z Hd E0).
    exact Hall.
  - inversion H as [Hwm]. exact Hall.
Qed.

(** X20: the map only ever holds whole multiples of the weight: if every
    cell is a multiple of 255 (a zeroed map, say), so is every cell after
    any number of calls. *)
Theorem worldmap_multiples_of_weight (frames : list Telemetry)
  (Rover Rover' : RoverState) :
  run' frames Rover = Some Rover' ->
  (forall y x c, (255 | wm_cell (worldmap Rover) y x c)%Z) ->
  forall y x c, (255 | wm_cell (worldmap Rover') y x c)%Z.
Proof.
  revert Rover. induction frames as [ | t rest IH]; intros Rover H Hall.
  - inversion H. subst. exact Hall.
  - simpl in H.
    destruct (step' (receive t Rover)) as [Rover1 | ] eqn:E;
      [ | discriminate].
    apply (IH Rover1 H).
    exact (perception_step_divides _ _ E Hall).
Qed.

Lemma perception_step_open_cells (Rover : RoverState) :
  (1 <= wm_shape0 (worldmap Rover) <= wm_shape1 (worldmap Rover))%Z ->
  gate_open Rover = true ->
  let wm := worldmap Rover in
  let hit (m : mask) (y x : Z) :=
    touched (wm_shape0 wm) (wm_shape1 wm)
            (snd (world_points m Rover)) (fst (world_points m Rover)) y x in
  exists Rover',
    step' Rover = Some Rover' /\
    wm_shape0 (worldmap Rover') = wm_shape0 wm /\
    wm_shape1 (worldmap Rover') = wm_shape1 wm /\
    forall y x,
      wm_cell (worldmap Rover') y x 0
      = (wm_cell wm y x 0
         + if hit (obstacle' Rover) y x then 255 else 0)%Z /\
      wm_cell (worldmap Rover') y x 1
      = (wm_cell wm y x 1 + if hit (rocks' Rover) y x then 255 else 0)%Z /\
      wm_cell (worldmap Rover') y x 2
      = (wm_cell wm y x 2
         + if hit (terrain' Rover) y x then 255 else 0)%Z.
Proof.
  intros Hwf Hgate wm hit.
  destruct (accumulate_total matrix getPerspectiveTransform
              warpPerspective Rover Hwf) as [wm' Hacc].
  exists (settled' Rover wm').
  split; [now rewrite perception_step_open, Hacc by assumption | ].
  cbn [worldmap settle].
  exact (accumulate_cells _ _ _ Rover wm' Hacc).
Qed.

Lemma repeat_frame_cells (t : Telemetry) (n : nat) :
  forall Rover : RoverState,
    (1 <= wm_shape0 (worldmap Rover) <= wm_shape1 (worldmap Rover))%Z ->
    gate_open (receive t Rover) = true ->
    let wm := worldmap Rover in
    let hit (m : mask) (y x : Z) :=
      touched (wm_shape0 wm) (wm_shape1 wm)
              (snd (world_points m (receive t Rover)))
              (fst (world_points m (receive t Rover))) y x in
    exists Rover',
      run' (repeat t n) Rover = Some Rover' /\
      wm_shape0 (worldmap Rover') = wm_shape0 wm /\
      wm_shape1 (worldmap Rover') = wm_shape1 wm /\
      forall y x,
        wm_cell (worldmap Rover') y x 0
        = (wm_cell wm y x 0
           + Z.of_nat n
             * if hit (obstacle' (receive t Rover)) y x then 255 else 0)%Z
        /\
        wm_cell (worldmap Rover') y x 1
        = (wm_cell wm y x 1
           + Z.of_nat n
             * if hit (rocks' (receive t Rover)) y x then 255 else 0)%Z
        /\
        wm_cell (worldmap Rover') y x 2
        = (wm_cell wm y x 2
           + Z.of_nat n
             * if hit (terrain' (receive t Rover)) y x then 255 else 0)%Z.
Proof.
  induction n as [ | n IH]; intros Rover Hwf Hgate wm hit.
  - exists Rover.
    split; [reflexivity | ]. split; [reflexivity | ].
    split; [reflexivity | ].
    intros y x. change (Z.of_nat 0) with 0%Z. unfold wm.
    repeat split; lia.
  - simpl repeat. simpl run.
    destruct (perception_step_open_cells (receive t Rover) Hwf Hgate)
      as (R1 & E1 & S0 & S1 & Hc1).
    cbv zeta in S0, S1, Hc1. cbn [receive worldmap] in S0, S1, Hc1.
    rewrite E1.
    assert (Hwf1 : (1 <= wm_shape0 (worldmap R1)
                    <= wm_shape1 (worldmap R1))%Z) by lia.
    destruct (IH R1 Hwf1 Hgate) as (R' & E' & T0 & T1 & Hc').
    cbv zeta in T0, T1, Hc'.
    exists R'. split; [exact E' | ].
    split; [unfold wm; congruence | ]. split; [unfold wm; congruence | ].
    destruct (masks_from_frame (receive t R1) (receive t Rover) eq_refl)
      as (Mt & Mo & Mr).
    assert (Hwp : forall m, world_points m (receive t R1)
                            = world_points m (receive t Rover)).
    { intro m. unfold world_points. cbn [receive pos yaw worldmap].
      now rewrite S0. }
    rewrite Mt, Mo, Mr, !Hwp, S0, S1 in Hc'.
    intros y x. specialize (Hc1 y x). specialize (Hc' y x).
    destruct Hc1 as (A0 & A1 & A2). destruct Hc' as (B0 & B1 & B2).
    rewrite B0, B1, B2, A0, A1, A2. unfold hit, wm.
    rewrite Nat2Z.inj_succ.
    repeat split;
      match goal with |- context [if ?b then _ else _] =>
        destruct b; lia end.
Qed.

(** X21: the same frame processed [n] times in a row with the gate open
    adds up: every cell hit by a point set has its channel raised by
    [255 * n], every other cell of that channel keeps its value (two runs
    double the effect of one). *)
Theorem repeated_frames_add_up (t : Telemetry) (n : nat)
  (Rover : RoverState) :
  (1 <= wm_shape0 (worldmap Rover) <= wm_shape1 (worldmap Rover))%Z ->
  (t_roll t < 2 \/ t_roll t > 358) /\ (t_pitch t < 2 \/ t_pitch t > 358) ->
  exists Rover',
    run' (repeat t n) Rover = Some Rover' /\
    forall (m : mask) (ch : Z),
      (m = obstacle' (receive t Rover) /\ ch = 0%Z) \/
      (m = rocks' (receive t Rover) /\ ch = 1%Z) \/
      (m = terrain' (receive t Rover) /\ ch = 2%Z) ->
      forall y x,
        (In (y, x) (combine (snd (world_points m (receive t Rover)))
                            (fst (world_points m (receive t Rover)))) ->
         wm_cell (worldmap Rover') y x ch
         = (wm_cell (worldmap Rover) y x ch + 255 * Z.of_nat n)%Z) /\
        (~ In (y, x) (combine (snd (world_points m (receive t Rover)))
                              (fst (world_points m (receive t Rover)))) ->
         wm_cell (worldmap Rover') y x ch
         = wm_cell (worldmap Rover) y x ch).
Proof.
  intros Hwf Hgate.
  assert (Hopen : gate_open (receive t Rover) = true)
    by (apply gate_open_true; exact Hgate).
  destruct (repeat_frame_cells t n Rover Hwf Hopen)
    as (Rover' & Hrun & _ & _ & Hc).
  cbv zeta in Hc.
  exists Rover'. split; [exact Hrun | ].
  intros m ch Hm y x. destruct (Hc y x) as (H0 & H1 & H2).
  assert (Hhit : touched (wm_shape0 (worldmap Rover))
                         (wm_shape1 (worldmap Rover))
                         (snd (world_points m (receive t Rover)))
                         (fst (world_points m (receive t Rover))) y x = true
                 <-> In (y, x)
                        (combine (snd (world_points m (receive t Rover)))
                                 (fst (world_points m (receive t Rover))))).
  { apply touched_in. intros p Hp.
    pose proof (world_points_in_map m (receive t Rover) p Hwf Hp). lia. }
  destruct Hm as [[-> ->] | [[-> ->] | [-> ->]]];
    [rewrite H0 | rewrite H1 | rewrite H2]; clear H0 H1 H2 Hc;
    (split; intro Hin;
     [rewrite (proj2 Hhit Hin); lia
     | match type of Hhit with
       | ?b = true <-> _ => destruct b
       end; [exfalso; apply Hin, Hhit; reflexivity | lia]]).
Qed.

End PerceptionFurther.

(** ** Concrete runs of the further properties *)

Lemma sample_closed_step (frame : image) (roll pitch : R) :
  2 <= roll <= 358 \/ 2 <= pitch <= 358 ->
  perception_step unit plain_matrix plain_warp
                  (sample_rover frame roll pitch)
  = Some (settle unit plain_matrix plain_warp
                 (sample_rover frame roll pitch) blank_map).
Proof.
  intro H. apply perception_step_closed. apply gate_open_false. exact H.
Qed.

Lemma perception_step_keeps_inputs_witness :
  exists Rover',
    perception_step unit plain_matrix plain_warp
                    (sample_rover twin_frame 10 0) = Some Rover' /\
    img Rover' = twin_frame /\ roll Rover' = 10.
Proof.
  assert (H : 2 <= 10 <= 358 \/ 2 <= 0 <= 358) by lra.
  eexists. split; [exact (sample_closed_step twin_frame 10 0 H) | ].
  destruct (perception_step_keeps_inputs unit plain_matrix plain_warp
              _ _ (sample_closed_step twin_frame 10 0 H))
    as (Hi & _ & _ & Hr & _).
  split; [exact Hi | exact Hr].
Defined.

Lemma cues_from_frame_only_witness :
  nav_dists (settle unit plain_matrix plain_warp
                    (sample_rover twin_frame 10 0) blank_map)
  = nav_dists (settle unit plain_matrix plain_warp
                      (sample_rover twin_frame 0 90) blank_map).
Proof.
  assert (H1 : 2 <= 10 <= 358 \/ 2 <= 0 <= 358) by lra.
  assert (H2 : 2 <= 0 <= 358 \/ 2 <= 90 <= 358) by lra.
  exact (proj1 (cues_from_frame_only unit plain_matrix plain_warp
                  (sample_rover twin_frame 10 0)
                  (sample_rover twin_frame 0 90) _ _ eq_refl
                  (sample_closed_step twin_frame 10 0 H1)
                  (sample_closed_step twin_frame 0 90 H2))).
Defined.

Lemma gate_closed_idempotent_witness :
  (2 <= roll (sample_rover twin_frame 180 0) <= 358 \/
   2 <= pitch (sample_rover twin_frame 180 0) <= 358) /\
  exists Rover',
    perception_step unit plain_matrix plain_warp
                    (sample_rover twin_frame 180 0) = Some Rover' /\
    perception_step unit plain_matrix plain_warp Rover' = Some Rover'.
Proof.
  assert (H : 2 <= roll (sample_rover twin_frame 180 0) <= 358 \/
              2 <= pitch (sample_rover twin_frame 180 0) <= 358)
    by (simpl; lra).
  split; [exact H | ].
  exact (gate_closed_idempotent unit plain_matrix plain_warp
           (sample_rover twin_frame 180 0) H).
Defined.

Lemma cue_distances_at_least_one_witness :
  Forall (fun d => 1 <= d)
         (nav_dists (settle unit plain_matrix plain_warp
                            (sample_rover twin_frame 10 0) blank_map)).
Proof.
  assert (H : 2 <= 10 <= 358 \/ 2 <= 0 <= 358) by lra.
  exact (proj1 (cue_distances_at_least_one unit plain_matrix plain_warp
                  _ _ (sample_closed_step twin_frame 10 0 H))).
Defined.

Lemma cues_follow_terrain_witness :
  length (nav_dists (settle unit plain_matrix plain_warp
                            (sample_rover twin_frame 10 0) blank_map))
  = length (fst (nonzero (terrain_mask unit plain_matrix plain_warp
                                       (sample_rover twin_frame 10 0)))).
Proof.
  assert (H : 2 <= 10 <= 358 \/ 2 <= 0 <= 358) by lra.
  exact (proj1 (cues_follow_terrain unit plain_matrix plain_warp
                  _ _ (sample_closed_step twin_frame 10 0 H))).
Defined.

Lemma empty_map_raises_witness :
  (wm_shape0 (worldmap (stranded_rover twin_frame)) <= 0)%Z /\
  active (terrain_mask unit plain_matrix plain_warp
                       (stranded_rover twin_frame)) 0 0 /\
  perception_step unit plain_matrix plain_warp (stranded_rover twin_frame)
  = None.
Proof.
  assert (Hn : (wm_shape0 (worldmap (stranded_rover twin_frame)) <= 0)%Z)
    by (simpl; lia).
  assert (Hact : active (terrain_mask unit plain_matrix plain_warp
                                      (stranded_rover twin_frame)) 0 0)
    by (exists 1%Z; split; [reflexivity | lia]).
  split; [exact Hn | ]. split; [exact Hact | ].
  apply (empty_map_raises unit plain_matrix plain_warp
           (stranded_rover twin_frame) Hn).
  - simpl. lra.
  - exists 0%nat, 0%nat. right. right. exact Hact.
Defined.

Lemma overlay_shows_masks_witness :
  item (plane2 (vision_image
                  (settle unit plain_matrix plain_warp
                          (sample_rover single_frame 10 0) blank_map))) 0 0
  = Some 255%Z
  <-> active (terrain_mask unit plain_matrix plain_warp
                           (sample_rover single_frame 10 0)) 0 0.
Proof.
  assert (H : 2 <= 10 <= 358 \/ 2 <= 0 <= 358) by lra.
  pose proof (overlay_shows_masks unit plain_matrix plain_warp
                _ _ (sample_closed_step single_frame 10 0 H)) as Hall.
  exact (proj1 (Forall_inv (Forall_inv_tail (Forall_inv_tail Hall))
                           0%nat 0%nat)).
Defined.

Lemma worldmap_multiples_of_weight_witness :
  exists Rover',
    run unit plain_matrix plain_warp
        [sample_frame twin_frame 0 0; sample_frame twin_frame 1 359]
        (sample_rover [] 0 0) = Some Rover' /\
    forall y x c, (255 | wm_cell (worldmap Rover') y x c)%Z.
Proof.
  destruct two_frames_accumulate as (Rover' & Hrun & _).
  exists Rover'. split; [exact Hrun | ].
  apply (worldmap_multiples_of_weight unit plain_matrix plain_warp
           _ _ _ Hrun).
  intros y x c. simpl. apply Z.divide_0_r.
Defined.

Lemma repeated_frames_add_up_witness :
  exists Rover',
    run unit plain_matrix plain_warp
        (repeat (sample_frame twin_frame 0 0) 3) (sample_rover [] 0 0)
    = Some Rover' /\
    wm_cell (worldmap Rover') 0 0 2 = 765%Z.
Proof.
  assert (Hwf : (1 <= wm_shape0 (worldmap (sample_rover [] 0 0))
                 <= wm_shape1 (worldmap (sample_rover [] 0 0)))%Z)
    by (simpl; lia).
  assert (Hgate : (t_roll (sample_frame twin_frame 0 0) < 2 \/
                   t_roll (sample_frame twin_frame 0 0) > 358) /\
                  (t_pitch (sample_frame twin_frame 0 0) < 2 \/
                   t_pitch (sample_frame twin_frame 0 0) > 358))
    by (simpl; lra).
  destruct (repeated_frames_add_up unit plain_matrix plain_warp
              (sample_frame twin_frame 0 0) 3 (sample_rover [] 0 0)
              Hwf Hgate) as (Rover' & Hrun & Hc).
  exists Rover'. split; [exact Hrun | ].
  destruct (Hc [[1; 1]%Z] 2%Z (or_intror (or_intror (conj eq_refl eq_refl)))
               0%Z 0%Z) as [Hin _].
  rewrite Hin; [reflexivity | ].
  change (receive (sample_frame twin_frame 0 0) (sample_rover [] 0 0))
    with (sample_rover twin_frame 0 0).
  rewrite twin_world_points. simpl. now left.
Defined.

(** ** The side a cue points to *)

Lemma atan_sign (t : R) :
  (0 < t <-> 0 < atan t) /\ (t < 0 <-> atan t < 0) /\
  (t = 0 <-> atan t = 0).
Proof.
  assert (Hpos : 0 < t -> 0 < atan t)
    by (intro H; rewrite <- atan_0; now apply atan_increasing).
  assert (Hneg : t < 0 -> atan t < 0)
    by (intro H; rewrite <- atan_0; now apply atan_increasing).
  assert (Hzero : t = 0 -> atan t = 0) by (intros ->; apply atan_0).
  destruct (Rtotal_order t 0) as [H | [H | H]].
  - specialize (Hneg H). repeat split; intros; lra.
  - specialize (Hzero H). repeat split; intros; lra.
  - specialize (Hpos H). repeat split; intros; lra.
Qed.

(** X22: for a point ahead of the rover ([x > 0], as every pixel of a mask
    is) the sign of the angle is the side of the point: positive for a
    point to the left ([y > 0]), negative to the right, zero straight
    ahead. *)
Theorem cue_angle_side xs ys i x y :
  nth_error xs i = Some x -> nth_error ys i = Some y -> 0 < x ->
  exists a,
    nth_error (snd (to_polar_coords xs ys)) i = Some a /\
    (0 < y <-> 0 < a) /\ (y < 0 <-> a < 0) /\ (y = 0 <-> a = 0).
Proof.
  intros Hx Hy Hpos. exists (Np.arctan2 y x).
  split; [exact (nth_error_map2 Np.arctan2 ys xs i y x Hy Hx) | ].
  unfold Np.arctan2. destruct (Rlt_dec 0 x); [ | contradiction].
  destruct (atan_sign (y / x)) as (Hp & Hn & Hz).
  assert (Hinv : 0 < / x) by now apply Rinv_0_lt_compat.
  assert (Hyx : y = (y / x) * x) by (field; lra).
  rewrite <- Hp, <- Hn, <- Hz.
  unfold Rdiv. repeat split; intro H; nra.
Qed.

Lemma cue_angle_side_witness :
  exists a,
    nth_error (snd (to_polar_coords [1; 1] [1; 0])) 0 = Some a /\
    (0 < 1 <-> 0 < a) /\ (1 < 0 <-> a < 0) /\ (1 = 0 <-> a = 0).
Proof.
  apply (cue_angle_side [1; 1] [1; 0] 0%nat 1 1); [reflexivity .. | lra].
Defined.
